(** * SMChess: the puzzle session engine

    A shallow embedding of [src/state_manager.py] (the deduplicated state
    store), [src/chess_logic.py] (the move-resolution state machine) and
    the pure part of [src/puzzle_manager.py], with the properties of the
    specification stated over it.

    The chess library the engine calls ([chess.Board], [chess.Move]) is an
    external capability: it appears as the interface [ChessRules], and a
    small opening book [Book.rules] instantiates it so that the engine can be
    run on concrete sessions. *)

From Stdlib Require Import ZArith Ascii String List Bool Lia.
From stdpp Require Import base option list strings gmap.

(** ** Python exceptions as results *)

Inductive PyError : Type :=
| ValueError          (* chess.Board(fen) on a malformed FEN *)
| InvalidMoveError    (* chess.Move.from_uci on a malformed string; a
                         subclass of ValueError *)
| AssertionError      (* board.push of a move from an empty square *)
| IndexError          (* pop from an empty list *)
| AttributeError      (* an attribute read on None *)
| UnboundLocalError.  (* a local read before any assignment *)

Inductive exc (A : Type) : Type :=
| Ok (a : A)
| Raise (e : PyError).
Arguments Ok {A} a.
Arguments Raise {A} e.

Definition bind {A B} (r : exc A) (k : A -> exc B) : exc B :=
  match r with
  | Ok a => k a
  | Raise e => Raise e
  end.

Notation "'let*' x ':=' r 'in' k" := (bind r (fun x => k))
  (at level 10, x pattern, r at level 100, k at level 200).

(** ** state_manager.py *)

Module state_manager.

(** [PuzzleState]: a frozen dataclass with three fields. *)
Record PuzzleState : Type := mkPuzzleState {
  puzzle_id : string;
  moves_uci : list string;
  message_id : option Z
}.

(** [PuzzleState.__eq__]: [message_id] takes no part. *)
Definition PuzzleState_eq (self other : PuzzleState) : bool :=
  bool_decide (puzzle_id self = puzzle_id other) &&
  bool_decide (moves_uci self = moves_uci other).

(** [PuzzleState.__hash__] hashes the pair [(puzzle_id, moves_uci)]; the
    pair is the key under which a Python set files the object. *)
Definition identity (s : PuzzleState) : string * list string :=
  (puzzle_id s, moves_uci s).

(** [StateManager]: [states] is a Python [set] of [PuzzleState]. With the
    [__eq__]/[__hash__] above, a set holds at most one object per identity,
    so it is a finite map from identities to the object stored for them. *)
Record StateManager : Type := mkStateManager {
  states : gmap (string * list string) PuzzleState;
  current_state : option PuzzleState
}.

(** [StateManager.__init__] *)
Definition new : StateManager :=
  {| states := ∅; current_state := None |}.

(** [set.add]: an element equal to one already present is not inserted and
    the element already present stays. *)
Definition set_add (state : PuzzleState)
    (s : gmap (string * list string) PuzzleState)
    : gmap (string * list string) PuzzleState :=
  match s !! identity state with
  | Some _ => s
  | None => <[identity state := state]> s
  end.

(** [state in self.states] *)
Definition set_contains (state : PuzzleState)
    (s : gmap (string * list string) PuzzleState) : bool :=
  bool_decide (is_Some (s !! identity state)).

(** [StateManager.create_state]: builds the object, adds it to the set and
    returns the object it has just built. *)
Definition create_state (self : StateManager) (pid : string)
    (moves : list string) (mid : option Z) : StateManager * PuzzleState :=
  let state := mkPuzzleState pid moves mid in
  ({| states := set_add state (states self);
      current_state := current_state self |}, state).

(** [StateManager.set_current_state] *)
Definition set_current_state (self : StateManager) (state : PuzzleState)
    : StateManager :=
  {| states := states self; current_state := Some state |}.

(** [StateManager.get_current_state] *)
Definition get_current_state (self : StateManager) : option PuzzleState :=
  current_state self.

(** [StateManager.state_exists] *)
Definition state_exists (self : StateManager) (pid : string)
    (moves : list string) : bool :=
  set_contains (mkPuzzleState pid moves None) (states self).

(** [StateManager.get_state_count] *)
Definition get_state_count (self : StateManager) : nat :=
  size (states self).

(** The object the set holds for an identity, if any. *)
Definition stored (self : StateManager) (pid : string) (moves : list string)
    : option PuzzleState :=
  states self !! (pid, moves).

(** [SearchCriteria]: every field optional. *)
Module SearchCriteria.
Record t : Type := mk {
  puzzle_id : option string;
  moves_uci : option (list string);
  move_count : option Z;
  move_count_min : option Z;
  move_count_max : option Z;
  message_id : option Z
}.
(** [SearchCriteria()] *)
Definition any : t := mk None None None None None None.
End SearchCriteria.

(** [for state in self.states]: the elements of the set, in the order the
    iteration happens to take. *)
Definition set_elements (s : gmap (string * list string) PuzzleState)
    : list PuzzleState :=
  (map_to_list s).*2.

(** The body of the loop of [search_states]: [true] when no [continue] is
    taken and the state is appended. *)
Definition passes (criteria : SearchCriteria.t) (state : PuzzleState)
    : bool :=
  negb (match SearchCriteria.puzzle_id criteria with
        | Some p => negb (bool_decide (puzzle_id state = p))
        | None => false
        end)
  && negb (match SearchCriteria.moves_uci criteria with
           | Some m => negb (bool_decide (moves_uci state = m))
           | None => false
           end)
  && negb (match SearchCriteria.move_count criteria with
           | Some n => negb (Z.of_nat (length (moves_uci state)) =? n)%Z
           | None => false
           end)
  && negb (match SearchCriteria.move_count_min criteria with
           | Some n => (Z.of_nat (length (moves_uci state)) <? n)%Z
           | None => false
           end)
  && negb (match SearchCriteria.move_count_max criteria with
           | Some n => (Z.of_nat (length (moves_uci state)) >? n)%Z
           | None => false
           end)
  && negb (match SearchCriteria.message_id criteria with
           | Some i => negb (bool_decide (message_id state = Some i))
           | None => false
           end).

(** [StateManager.search_states] *)
Definition search_states (self : StateManager)
    (criteria : SearchCriteria.t) : list PuzzleState :=
  filter (λ state, passes criteria state = true) (set_elements (states self)).

(** [StateManager.get_states_for_puzzle] *)
Definition get_states_for_puzzle (self : StateManager) (pid : string)
    : list PuzzleState :=
  search_states self
    (SearchCriteria.mk (Some pid) None None None None None).

(** [StateManager.copy_state]: [x or y] takes [y] when [x] is [None] or
    empty; the message id is overridden by anything that is not [None]. *)
Definition copy_state (self : StateManager) (source_state : PuzzleState)
    (new_puzzle_id : option string) (new_moves_uci : option (list string))
    (new_message_id : option Z) : StateManager * PuzzleState :=
  create_state self
    (match new_puzzle_id with
     | Some p => if bool_decide (p = "") then puzzle_id source_state else p
     | None => puzzle_id source_state
     end)
    (match new_moves_uci with
     | Some (x :: l) => x :: l
     | Some [] | None => moves_uci source_state
     end)
    (match new_message_id with
     | Some i => Some i
     | None => message_id source_state
     end).

(** [StateManager.clear_puzzle_states] *)
Definition clear_puzzle_states (self : StateManager) (pid : string)
    : StateManager * nat :=
  let initial_count := size (states self) in
  let states' :=
    filter (λ kv : (string * list string) * PuzzleState,
              puzzle_id kv.2 ≠ pid) (states self) in
  ({| states := states';
      current_state :=
        match current_state self with
        | Some s => if bool_decide (puzzle_id s = pid) then None else Some s
        | None => None
        end |},
   initial_count - size states').

(** The calls that change a store. *)
Inductive StoreCall : Type :=
| CallCreate (pid : string) (moves : list string) (mid : option Z)
| CallCopy (source : PuzzleState) (new_pid : option string)
    (new_moves : option (list string)) (new_mid : option Z)
| CallSetCurrent (state : PuzzleState)
| CallClear (pid : string).

Definition store_call (self : StateManager) (c : StoreCall)
    : StateManager :=
  match c with
  | CallCreate pid moves mid => (create_state self pid moves mid).1
  | CallCopy source p m i => (copy_state self source p m i).1
  | CallSetCurrent state => set_current_state self state
  | CallClear pid => (clear_puzzle_states self pid).1
  end.

(** The store a sequence of calls builds from [StateManager()]. *)
Definition built (cs : list StoreCall) : StateManager :=
  foldl store_call new cs.

(** Every object is filed under its own identity. *)
Definition keyed (self : StateManager) : Prop :=
  ∀ k s, states self !! k = Some s → identity s = k.

(** The first of a list of [create_state] arguments with a given
    identity. *)
Definition first_created (pid : string) (moves : list string)
    (calls : list (string * list string * option Z)) : option PuzzleState :=
  match find (λ c : string * list string * option Z,
                bool_decide ((c.1.1, c.1.2) = (pid, moves))) calls with
  | Some c => Some (mkPuzzleState c.1.1 c.1.2 c.2)
  | None => None
  end.

(** [create_state] for each argument triple in turn. *)
Definition create_all (self : StateManager)
    (calls : list (string * list string * option Z)) : StateManager :=
  foldl (λ st c, (create_state st c.1.1 c.1.2 c.2).1) self calls.

End state_manager.

(** ** The chess-rules capability (python-chess)

    What the engine uses of [chess.Board] and [chess.Move]. A parser that
    raises one of the errors the caller catches returns [None]. *)

Class ChessRules : Type := {
  Position : Type;
  Move : Type;
  (** [chess.Board(fen)]; [None]: [ValueError] on a malformed FEN *)
  board_from_fen : string → option Position;
  (** [board.parse_san(s)]; [None]: one of the [ValueError]s it raises *)
  parse_san : Position → string → option Move;
  (** [chess.Move.from_uci(s)]; [None]: [InvalidMoveError] *)
  from_uci : string → option Move;
  (** [move.uci()] *)
  uci : Move → string;
  (** [bool(move)]: false for the null move only *)
  move_bool : Move → bool;
  (** [move in board.legal_moves] *)
  is_legal : Position → Move → bool;
  (** [board.san(move)] *)
  san : Position → Move → string;
  (** the assertion of [board.push(move)]: the move is the null move or a
      drop, or its from-square holds a piece *)
  pushable : Position → Move → bool;
  (** the position [board.push(move)] leads to when its assertion holds;
      legality is not checked *)
  apply_move : Position → Move → Position;
  (** [board.is_checkmate()], [board.is_stalemate()] *)
  is_checkmate : Position → bool;
  is_stalemate : Position → bool
}.

(** The contract of the library the properties below rely on:
    [parse_san] only returns a legal move or the null move, a legal move is
    never the null move, and a checkmate or stalemate position has no legal
    move. *)
Class ChessRulesLaws (R : ChessRules) : Prop := {
  parse_san_legal : ∀ p s m,
    parse_san p s = Some m → move_bool m = true → is_legal p m = true;
  legal_not_null : ∀ p m, is_legal p m = true → move_bool m = true;
  terminal_no_legal : ∀ p m,
    is_checkmate p || is_stalemate p = true → is_legal p m = false
}.

(** Coordinate notation round trip, as the library has it for the moves it
    generates: [Move.from_uci(move.uci())] is the move again. *)
Class UciRoundTrip (R : ChessRules) : Prop :=
  from_uci_uci : ∀ p m, is_legal p m = true → from_uci (uci m) = Some m.

(** A legal move moves a piece that is there: the assertion of
    [board.push] holds for it. *)
Class PushLaws (R : ChessRules) : Prop :=
  legal_pushable : ∀ p m, is_legal p m = true → pushable p m = true.

(** ** chess_logic.py *)

Module chess_logic.

Inductive MoveResult : Type :=
| SUCCESS
| INVALID_MOVE
| PUZZLE_SOLVED
| WRONG_MOVE.

#[global] Instance MoveResult_eq_dec : EqDecision MoveResult.
Proof. solve_decision. Defined.

Section Engine.
Context {R : ChessRules}.

(** [chess.Board]: the current position and the stack [push] and [pop] work
    on. Each entry of [move_stack] pairs a pushed move with the position it
    was played from, most recent first. *)
Record Board : Type := mkBoard {
  position : Position;
  move_stack : list (Move * Position)
}.

Definition board_new (p : Position) : Board :=
  {| position := p; move_stack := [] |}.

(** The board [board.push(move)] leaves when its assertion holds, as it
    does for the moves [play_move] pushes: they come from [parse_san] or
    are in [board.legal_moves]. *)
Definition push (b : Board) (m : Move) : Board :=
  {| position := apply_move (position b) m;
     move_stack := (m, position b) :: move_stack b |}.

(** [board.push(move)] on any move: [AssertionError] when the from-square
    of the move is empty. *)
Definition checked_push (b : Board) (m : Move) : exc Board :=
  if pushable (position b) m then Ok (push b m) else Raise AssertionError.

(** [board.pop()]; [IndexError] on an empty stack *)
Definition pop (b : Board) : exc Board :=
  match move_stack b with
  | [] => Raise IndexError
  | (_, p) :: st => Ok {| position := p; move_stack := st |}
  end.

(** [list.pop()]: drops the last element; [IndexError] on an empty list *)
Definition list_pop {A} (l : list A) : exc (list A) :=
  match l with
  | [] => Raise IndexError
  | _ => Ok (removelast l)
  end.

Record GameState : Type := mkGameState {
  board : Board;
  moves_uci : list string;
  current_move_index : nat;
  is_player_turn : bool;
  puzzle_solved : bool
}.

Record ChessLogic : Type := mkChessLogic {
  game_state : option GameState;
  solution_moves : list string;
  state_manager : option state_manager.StateManager;
  puzzle_id : option string
}.

(** [ChessLogic.__init__] *)
Definition new (sm : option state_manager.StateManager) : ChessLogic :=
  {| game_state := None; solution_moves := [];
     state_manager := sm; puzzle_id := None |}.

(** [ChessLogic.initialize_puzzle] *)
Definition initialize_puzzle (self : ChessLogic) (pid fen : string)
    (solution : list string) : exc ChessLogic :=
  match board_from_fen fen with
  | None => Raise ValueError
  | Some p =>
    Ok {| game_state := Some {| board := board_new p;
                                moves_uci := [];
                                current_move_index := 0;
                                is_player_turn := true;
                                puzzle_solved := false |};
          solution_moves := solution;
          state_manager := state_manager self;
          puzzle_id := Some pid |}
  end.

(** The loop of [ChessLogic._replay_moves_on_board]: every string goes
    through [from_uci] and is pushed; nothing checks that it is legal, and
    the errors of the parser and of [push] are not caught. *)
Fixpoint replay_loop (b : Board) (moves : list string) : exc Board :=
  match moves with
  | [] => Ok b
  | move_uci :: rest =>
    match from_uci move_uci with
    | None => Raise InvalidMoveError
    | Some m => let* b' := checked_push b m in replay_loop b' rest
    end
  end.

(** [ChessLogic._replay_moves_on_board] *)
Definition _replay_moves_on_board (initial_fen : string)
    (moves : list string) : exc Board :=
  match board_from_fen initial_fen with
  | None => Raise ValueError
  | Some p => replay_loop (board_new p) moves
  end.

(** [len(l) % 2 == 0] *)
Definition even_len {A} (l : list A) : bool := (length l mod 2 =? 0)%nat.

(** [ChessLogic.load_from_state] *)
Definition load_from_state (self : ChessLogic)
    (puzzle_state : state_manager.PuzzleState) (initial_fen : string)
    (solution : list string) : exc ChessLogic :=
  let* b := _replay_moves_on_board initial_fen
              (state_manager.moves_uci puzzle_state) in
  Ok {| game_state :=
          Some {| board := b;
                  moves_uci := state_manager.moves_uci puzzle_state;
                  current_move_index :=
                    length (state_manager.moves_uci puzzle_state);
                  is_player_turn :=
                    even_len (state_manager.moves_uci puzzle_state);
                  puzzle_solved := false |};
        solution_moves := solution;
        state_manager := state_manager self;
        puzzle_id := Some (state_manager.puzzle_id puzzle_state) |}.

(** The [try]/[except] block of [play_move]: algebraic notation first, then
    coordinate notation, the latter kept only when the move is legal. *)
Definition parse_move (b : Board) (move_str : string) : option Move :=
  match parse_san (position b) move_str with
  | Some m => Some m
  | None =>
    match from_uci move_str with
    | Some m => if is_legal (position b) m then Some m else None
    | None => None
    end
  end.

(** [if not move]: [None] and the null move are both falsy. *)
Definition resolve_move (b : Board) (move_str : string) : option Move :=
  match parse_move b move_str with
  | Some m => if move_bool m then Some m else None
  | None => None
  end.

(** [if self.state_manager and self.puzzle_id]: the store is notified when
    there is one and the puzzle id is a non-empty string. *)
Definition notify_store (sm : option state_manager.StateManager)
    (pid : option string) (moves : list string)
    : option state_manager.StateManager :=
  match sm, pid with
  | Some st, Some p =>
    if bool_decide (p = "") then Some st
    else
      let '(st', new_state) := state_manager.create_state st p moves None in
      Some (state_manager.set_current_state st' new_state)
  | _, _ => sm
  end.

(** The check against the solution in [play_move]: on the player's turn,
    with the index short of the end, the move must be the scripted one. *)
Definition off_script (self : ChessLogic) (gs : GameState) (move : Move)
    : bool :=
  is_player_turn gs
  && (current_move_index gs <? length (solution_moves self))%nat
  && negb (bool_decide
             (uci move =
              nth (current_move_index gs) (solution_moves self) "")).

(** "Execute the move" to the end of [play_move]: the push, the history,
    the index (advanced on the player's turn only), the turn, the store and
    the solved check. *)
Definition apply_ply (self : ChessLogic) (gs : GameState) (move : Move)
    : ChessLogic * (MoveResult * string) :=
  let san_move := san (position (board gs)) move in
  let board' := push (board gs) move in
  let moves' := moves_uci gs ++ [uci move] in
  let index' := if is_player_turn gs
                then S (current_move_index gs)
                else current_move_index gs in
  let sm' := notify_store (state_manager self) (puzzle_id self) moves' in
  let solved :=
    (length (solution_moves self) <=? index')%nat
    || is_checkmate (position board')
    || is_stalemate (position board') in
  ({| game_state :=
        Some {| board := board';
                moves_uci := moves';
                current_move_index := index';
                is_player_turn := negb (is_player_turn gs);
                puzzle_solved := if solved then true else puzzle_solved gs |};
      solution_moves := solution_moves self;
      state_manager := sm';
      puzzle_id := puzzle_id self |},
   if solved
   then (PUZZLE_SOLVED, "Puzzle solved with " +:+ san_move +:+ "!")
   else (SUCCESS, san_move)).

(** [ChessLogic.play_move] *)
Definition play_move (self : ChessLogic) (move_str : string)
    : ChessLogic * (MoveResult * string) :=
  match game_state self with
  | None => (self, (INVALID_MOVE, "No puzzle initialized"))
  | Some gs =>
    match resolve_move (board gs) move_str with
    | None =>
      (self, (INVALID_MOVE, "'" +:+ move_str +:+ "' is not a valid move"))
    | Some move =>
      if off_script self gs move
      then (self, (WRONG_MOVE, "Puzzle expects a different move"))
      else apply_ply self gs move
    end
  end.

(** The loop of [play_move_tree] leaves an iteration by [break] or by
    reaching its end. *)
Inductive flow : Type := Break | Continue.

(** [result in [MoveResult.INVALID_MOVE, MoveResult.PUZZLE_SOLVED]] *)
Definition stops (result : MoveResult) : bool :=
  match result with
  | INVALID_MOVE | PUZZLE_SOLVED => true
  | SUCCESS | WRONG_MOVE => false
  end.

(** One iteration of the loop of [play_move_tree], from the messages
    collected so far: the engine, the value of [result] and the messages it
    leaves. *)
Definition tree_body (self : ChessLogic) (results : list string)
    (move_str : string)
    : exc (flow * (ChessLogic * MoveResult * list string)) :=
  let '(self1, (result, message)) := play_move self move_str in
  let results1 := results ++ [message] in
  if stops result then Ok (Break, (self1, result, results1))
  else if bool_decide (result = SUCCESS) then
    match game_state self1 with
    | None => Raise AttributeError
    | Some gs =>
      if negb (is_player_turn gs)
         && (current_move_index gs <? length (solution_moves self1))%nat
      then
        let opponent_move :=
          nth (current_move_index gs) (solution_moves self1) "" in
        let '(self2, (opp_result, opp_message)) :=
          play_move self1 opponent_move in
        let results2 := results1 ++ ["Opponent: " +:+ opp_message] in
        if bool_decide (opp_result = PUZZLE_SOLVED)
        then Ok (Break, (self2, opp_result, results2))
        else Ok (Continue, (self2, result, results2))
      else Ok (Continue, (self1, result, results1))
    end
  else Ok (Continue, (self1, result, results1)).

(** The [for] loop of [play_move_tree]; [result] is [None] as long as the
    local has not been assigned. *)
Fixpoint tree_loop (self : ChessLogic) (result : option MoveResult)
    (results : list string) (moves : list string)
    : exc (flow * (ChessLogic * option MoveResult * list string)) :=
  match moves with
  | [] => Ok (Continue, (self, result, results))
  | move_str :: rest =>
    let* (fl, (self', r, results')) := tree_body self results move_str in
    match fl with
    | Break => Ok (Break, (self', Some r, results'))
    | Continue => tree_loop self' (Some r) results' rest
    end
  end.

(** [ChessLogic.play_move_tree] *)
Definition play_move_tree (self : ChessLogic) (moves : list string)
    : exc (ChessLogic * (MoveResult * list string)) :=
  let* (_, (self', result, results)) := tree_loop self None [] moves in
  match result with
  | None => Raise UnboundLocalError
  | Some r => Ok (self', (r, results))
  end.

(** The [while] loop of [rollback_moves]; [n] is [count - moves_popped]. *)
Fixpoint rollback_loop (n : nat) (b : Board) (moves : list string)
    (moves_popped : nat) : exc (Board * list string * nat) :=
  match n with
  | 0 => Ok (b, moves, moves_popped)
  | S n' =>
    match move_stack b with
    | [] => Ok (b, moves, moves_popped)
    | _ :: _ =>
      let* b' := pop b in
      let* moves' := list_pop moves in
      rollback_loop n' b' moves' (S moves_popped)
    end
  end.

(** [ChessLogic.rollback_moves] *)
Definition rollback_moves (self : ChessLogic) (count : Z)
    : exc (ChessLogic * bool) :=
  match game_state self with
  | None => Ok (self, false)
  | Some gs =>
    if (count <=? 0)%Z then Ok (self, false)
    else
      let* (b, moves, moves_popped) :=
        rollback_loop (Z.to_nat count) (board gs) (moves_uci gs) 0 in
      Ok ({| game_state :=
               Some {| board := b;
                       moves_uci := moves;
                       current_move_index :=
                         Nat.max 0 (current_move_index gs - moves_popped);
                       is_player_turn := even_len moves;
                       puzzle_solved := false |};
             solution_moves := solution_moves self;
             state_manager := state_manager self;
             puzzle_id := puzzle_id self |},
          (0 <? moves_popped)%nat)
  end.

(** The calls a client makes on a session once a puzzle is loaded. *)
Inductive Call : Type :=
| CallPlayMove (move_str : string)
| CallRollback (count : Z).

Definition call (self : ChessLogic) (c : Call) : exc ChessLogic :=
  match c with
  | CallPlayMove move_str => Ok (play_move self move_str).1
  | CallRollback count =>
    let* (self', _) := rollback_moves self count in Ok self'
  end.

Fixpoint calls (self : ChessLogic) (cs : list Call) : exc ChessLogic :=
  match cs with
  | [] => Ok self
  | c :: rest => let* self' := call self c in calls self' rest
  end.

(** What every session built by this engine satisfies: the turn follows the
    parity of the history, and the board's stack is as long as the
    history. *)
Definition consistent (gs : GameState) : Prop :=
  is_player_turn gs = even_len (moves_uci gs)
  ∧ length (move_stack (board gs)) = length (moves_uci gs).

(** What [play_move] makes of the index from [initialize_puzzle] on: the
    number of the player's plies in the history, not the length of the
    history. *)
Definition counted (gs : GameState) : Prop :=
  is_player_turn gs = even_len (moves_uci gs)
  ∧ current_move_index gs = (length (moves_uci gs) + 1) / 2.

(** [play_move] for each string in turn, keeping the outcomes. *)
Fixpoint play_moves (self : ChessLogic) (moves : list string)
    : ChessLogic * list MoveResult :=
  match moves with
  | [] => (self, [])
  | m :: rest =>
    let '(self1, (r, _)) := play_move self m in
    let '(self2, rs) := play_moves self1 rest in
    (self2, r :: rs)
  end.

(** [board.pop()] up to [n] times, stopping at an empty stack: what the
    loop of [rollback_moves] makes of the board. *)
Fixpoint pops (n : nat) (b : Board) : Board :=
  match n with
  | 0 => b
  | S n' =>
    match move_stack b with
    | [] => b
    | (_, p) :: st => pops n' {| position := p; move_stack := st |}
    end
  end.

(** The assertion of [push] holds for the moves of a line one after the
    other, from [p] on. *)
Fixpoint pushable_line (p : Position) (mvs : list Move) : bool :=
  match mvs with
  | [] => true
  | m :: rest => pushable p m && pushable_line (apply_move p m) rest
  end.

(** The engine with the solved flag of its game state set to [flag]. *)
Definition set_solved (flag : bool) (self : ChessLogic) : ChessLogic :=
  {| game_state :=
       match game_state self with
       | Some gs => Some {| board := board gs;
                            moves_uci := moves_uci gs;
                            current_move_index := current_move_index gs;
                            is_player_turn := is_player_turn gs;
                            puzzle_solved := flag |}
       | None => None
       end;
     solution_moves := solution_moves self;
     state_manager := state_manager self;
     puzzle_id := puzzle_id self |}.

(** The moves of a line are legal one after the other, from [p] on. *)
Fixpoint legal_line (p : Position) (mvs : list Move) : bool :=
  match mvs with
  | [] => true
  | m :: rest => is_legal p m && legal_line (apply_move p m) rest
  end.

(** A session whose board is the start position with the moves of the
    history pushed on it one by one, each legal where it was played. *)
Definition replayable (p0 : Position) (gs : GameState) : Prop :=
  ∃ mvs, board gs = foldl push (board_new p0) mvs
    ∧ moves_uci gs = uci <$> mvs
    ∧ legal_line p0 mvs = true.

End Engine.
End chess_logic.

(** ** puzzle_manager.py

    The puzzle record and the part of [PuzzleManager] that is neither HTTP
    nor file I/O. *)

Module puzzle_manager.

Record PuzzleData : Type := mkPuzzleData {
  puzzle_id : string;
  fen : string;
  moves : list string;
  rating : Z;
  rating_deviation : Z;
  popularity : Z;
  nb_plays : Z;
  themes : list string;
  game_url : string;
  opening_tags : list string
}.

Record PuzzleManager : Type := mkPuzzleManager {
  current_puzzle : option PuzzleData;
  user_difficulty : Z;
  state_manager : state_manager.StateManager
}.

(** [PuzzleManager.__init__] *)
Definition new : PuzzleManager :=
  {| current_puzzle := None;
     user_difficulty := 1200;
     state_manager := state_manager.new |}.

(** [PuzzleManager.adjust_difficulty] *)
Definition adjust_difficulty (self : PuzzleManager) (success : bool)
    : PuzzleManager :=
  {| current_puzzle := current_puzzle self;
     user_difficulty :=
       if success then Z.min (user_difficulty self + 50) 2500
       else Z.max (user_difficulty self - 25) 800;
     state_manager := state_manager self |}.

(** [PuzzleManager.create_state_after_moves] *)
Definition create_state_after_moves (self : PuzzleManager)
    (moves_uci : list string) (message_id : option Z)
    : PuzzleManager * option state_manager.PuzzleState :=
  match current_puzzle self with
  | None => (self, None)
  | Some puzzle =>
    let '(st, state) :=
      state_manager.create_state (state_manager self) (puzzle_id puzzle)
        moves_uci message_id in
    ({| current_puzzle := current_puzzle self;
        user_difficulty := user_difficulty self;
        state_manager := st |}, Some state)
  end.

Section Boards.
Context {R : ChessRules}.

(** [PuzzleManager.get_board_from_state] *)
Definition get_board_from_state (self : PuzzleManager)
    (state : state_manager.PuzzleState) : exc chess_logic.Board :=
  match current_puzzle self with
  | None => Raise ValueError
  | Some puzzle =>
    match board_from_fen (fen puzzle) with
    | None => Raise ValueError
    | Some p =>
      chess_logic.replay_loop (chess_logic.board_new p)
        (state_manager.moves_uci state)
    end
  end.

End Boards.
End puzzle_manager.

(** ** An opening book as chess rules

    A finite instance of [ChessRules]: a few positions reached from two
    starting positions, each with some of its legal moves in coordinate and
    algebraic notation. Every listed move is legal in chess in the position
    it is listed for; a position or a move outside the book has no legal
    standing. The engine runs on it as it does on the library. *)

Module Book.

(** The initial position of chess. *)
Definition initial_fen : string :=
  "rnbqkbnr/pppppppp/8/8/8/8/PPPPPPPP/RNBQKBNR w KQkq - 0 1".

(** The position after 1. e4 g6. *)
Definition modern_fen : string :=
  "rnbqkbnr/pppppp1p/6p1/8/4P3/8/PPPP1PPP/RNBQKBNR w KQkq - 0 2".

(** A position: the starting FEN and the moves pushed since. *)
Definition Pos : Type := string * list string.

Definition lines : list (Pos * list (string * string)) :=
  [ ((initial_fen, []),
     [("e2e4", "e4"); ("d2d4", "d4"); ("c2c4", "c4"); ("f2f3", "f3");
      ("g1f3", "Nf3"); ("b1c3", "Nc3")]);
    ((initial_fen, ["e2e4"]),
     [("e7e5", "e5"); ("c7c5", "c5"); ("e7e6", "e6"); ("g8f6", "Nf6")]);
    ((initial_fen, ["e2e4"; "e7e5"]),
     [("g1f3", "Nf3"); ("f1c4", "Bc4"); ("d1h5", "Qh5"); ("d2d4", "d4")]);
    ((initial_fen, ["e2e4"; "e7e5"; "g1f3"]),
     [("b8c6", "Nc6"); ("g8f6", "Nf6"); ("d7d6", "d6")]);
    ((initial_fen, ["f2f3"]),
     [("e7e5", "e5"); ("e7e6", "e6")]);
    ((initial_fen, ["f2f3"; "e7e5"]),
     [("g2g4", "g4"); ("e2e4", "e4")]);
    ((initial_fen, ["f2f3"; "e7e5"; "g2g4"]),
     [("d8h4", "Qh4#"); ("d7d5", "d5")]);
    ((modern_fen, []),
     [("d1h5", "Qh5"); ("d2d4", "d4"); ("g1f3", "Nf3")]);
    ((modern_fen, ["d1h5"]),
     [("g6h5", "gxh5"); ("g8f6", "Nf6")]);
    ((modern_fen, ["d1h5"; "g6h5"]),
     [("d2d4", "d4"); ("g1f3", "Nf3")]) ].

(** Fool's mate: the one checkmate of the book. *)
Definition mates : list Pos :=
  [ (initial_fen, ["f2f3"; "e7e5"; "g2g4"; "d8h4"]) ].

Definition legal_moves (p : Pos) : list (string * string) :=
  match find (λ e, bool_decide (e.1 = p)) lines with
  | Some e => e.2
  | None => []
  end.

Definition is_file (c : ascii) : bool :=
  bool_decide (c ∈ list_ascii_of_string "abcdefgh").
Definition is_rank (c : ascii) : bool :=
  bool_decide (c ∈ list_ascii_of_string "12345678").
Definition is_piece (c : ascii) : bool :=
  bool_decide (c ∈ list_ascii_of_string "pnbrqk").

(** [chess.Move.from_uci] without drops: "0000" is the null move; otherwise
    two distinct squares and an optional promotion piece. *)
Definition book_from_uci (s : string) : option string :=
  if bool_decide (s = "0000") then Some s
  else
    match list_ascii_of_string s with
    | [f1; r1; f2; r2] =>
      if is_file f1 && is_rank r1 && is_file f2 && is_rank r2
         && negb (bool_decide ((f1, r1) = (f2, r2)))
      then Some s else None
    | [f1; r1; f2; r2; pr] =>
      if is_file f1 && is_rank r1 && is_file f2 && is_rank r2
         && is_piece pr && negb (bool_decide ((f1, r1) = (f2, r2)))
      then Some s else None
    | _ => None
    end.

(** [board.parse_san]: the null-move tokens, else a legal move written in
    algebraic notation or with both squares. *)
Definition book_parse_san (p : Pos) (s : string) : option string :=
  if bool_decide (s ∈ ["--"; "Z0"; "0000"; "@@@@"]) then Some "0000"
  else
    match find (λ e, bool_decide (e.2 = s) || bool_decide (e.1 = s))
               (legal_moves p) with
    | Some e => Some e.1
    | None => None
    end.

Definition book_is_legal (p : Pos) (m : string) : bool :=
  bool_decide (m ∈ (legal_moves p).*1).

Definition book_san (p : Pos) (m : string) : string :=
  match find (λ e, bool_decide (e.1 = m)) (legal_moves p) with
  | Some e => e.2
  | None => m
  end.

(** The squares the piece placement field of a FEN fills, read rank 8
    first: a digit skips that many files, a slash starts the next rank. *)
Definition square (f r : nat) : string :=
  String (nth f (list_ascii_of_string "abcdefgh") "a"%char)
    (String (nth (r - 1) (list_ascii_of_string "12345678") "1"%char) "").

Fixpoint placement (cs : list ascii) (f r : nat) : list string :=
  match cs with
  | [] => []
  | c :: rest =>
    if bool_decide (c = " "%char) then []
    else if bool_decide (c = "/"%char) then placement rest 0 (r - 1)
    else if is_rank c then placement rest (f + (nat_of_ascii c - 48)) r
    else square f r :: placement rest (S f) r
  end.

(** A move in coordinate notation empties its from-square and fills its
    to-square; the book has no castling and no en passant capture. *)
Definition move_piece (occ : list string) (m : string) : list string :=
  match list_ascii_of_string m with
  | f1 :: r1 :: f2 :: r2 :: _ =>
    String f2 (String r2 "")
    :: filter (λ sq, sq ≠ String f1 (String r1 "")) occ
  | _ => occ
  end.

(** The squares that hold a piece in a position. *)
Definition occupied (p : Pos) : list string :=
  foldl move_piece (placement (list_ascii_of_string p.1) 0 8) p.2.

(** The assertion of [board.push]: the null move, or a move from a square
    that holds a piece. *)
Definition book_pushable (p : Pos) (m : string) : bool :=
  bool_decide (m = "0000")
  || match list_ascii_of_string m with
     | f1 :: r1 :: _ => bool_decide (String f1 (String r1 "") ∈ occupied p)
     | _ => false
     end.

Definition book_from_fen (fen : string) : option Pos :=
  if bool_decide (fen ∈ [initial_fen; modern_fen]) then Some (fen, [])
  else None.

#[global] Instance rules : ChessRules := {|
  Position := Pos;
  Move := string;
  board_from_fen := book_from_fen;
  parse_san := book_parse_san;
  from_uci := book_from_uci;
  uci := λ m, m;
  move_bool := λ m, negb (bool_decide (m = "0000"));
  is_legal := book_is_legal;
  san := book_san;
  pushable := book_pushable;
  apply_move := λ p m, (p.1, p.2 ++ [m]);
  is_checkmate := λ p, bool_decide (p ∈ mates);
  is_stalemate := λ _, false
|}.

Import chess_logic.

(** A fresh engine wired to an empty store, as the server builds it. *)
Definition engine : ChessLogic :=
  chess_logic.new (Some state_manager.new).

(** What a caller observes of a session. *)
Definition history (self : ChessLogic) : list string :=
  match game_state self with Some gs => moves_uci gs | None => [] end.
Definition cursor (self : ChessLogic) : nat :=
  match game_state self with Some gs => current_move_index gs | None => 0 end.
Definition count (self : ChessLogic) : nat :=
  match state_manager self with
  | Some st => state_manager.get_state_count st
  | None => 0
  end.

(** The game state of a session; that of a fresh puzzle on the initial
    position when the engine has none. *)
Definition state (self : ChessLogic) : GameState :=
  match game_state self with
  | Some gs => gs
  | None => {| board := board_new (initial_fen, []);
               moves_uci := [];
               current_move_index := 0;
               is_player_turn := true;
               puzzle_solved := false |}
  end.

(** The session an [initialize_puzzle] call on [engine] leaves. *)
Definition session (fen : string) (solution : list string) : ChessLogic :=
  match initialize_puzzle engine "p1" fen solution with
  | Ok self => self
  | Raise _ => engine
  end.

(** [play_move] for each string in turn, from a session. *)
Definition played (self : ChessLogic) (moves : list string) : ChessLogic :=
  (play_moves self moves).1.

(** The engine [rollback_moves] leaves. *)
Definition rolled_back (self : ChessLogic) (count : Z) : ChessLogic :=
  match rollback_moves self count with
  | Ok (self', _) => self'
  | Raise _ => self
  end.

(** The Open Game after 1. e4 e5 2. Nf3, played on a puzzle whose solution
    lists the moves the index asks of the player. *)
Definition open_game : ChessLogic :=
  played (session initial_fen ["e2e4"; "g1f3"; "b8c6"])
    ["e2e4"; "e7e5"; "g1f3"].

(** The session a [load_from_state] call on [engine] leaves, from the
    initial position. *)
Definition loaded (moves solution : list string) : ChessLogic :=
  match load_from_state engine (state_manager.mkPuzzleState "p1" moves None)
          initial_fen solution with
  | Ok self => self
  | Raise _ => engine
  end.

(** Scenario C of the specification on the position after 1. e4 g6. *)
Definition scenario_C : ChessLogic :=
  session modern_fen ["d1h5"; "g6h5"].

End Book.

(** * Properties *)

(** ** The state store *)

Section StoreFacts.
Import state_manager.

Lemma PuzzleState_eq_spec (a b : PuzzleState) :
  PuzzleState_eq a b = true ↔ identity a = identity b.
Proof.
  unfold PuzzleState_eq, identity. rewrite andb_true_iff.
  rewrite !bool_decide_eq_true. split.
  - intros [-> ->]. reflexivity.
  - intros [= -> ->]. split; reflexivity.
Qed.

Lemma create_state_returns (st : StateManager) p m mid :
  (create_state st p m mid).2 = mkPuzzleState p m mid.
Proof. reflexivity. Qed.

(** An identity already in the set: the set is left as it is. *)
Lemma create_state_present (st : StateManager) p m mid s :
  stored st p m = Some s →
  states (create_state st p m mid).1 = states st.
Proof.
  unfold stored, create_state, set_add, identity. simpl.
  intros ->. reflexivity.
Qed.

(** An identity not yet in the set: the new object is filed under it. *)
Lemma create_state_absent (st : StateManager) p m mid :
  stored st p m = None →
  states (create_state st p m mid).1
  = <[(p, m) := mkPuzzleState p m mid]> (states st).
Proof.
  unfold stored, create_state, set_add, identity. simpl.
  intros ->. reflexivity.
Qed.

(** After [create_state] the identity is in the set. *)
Lemma create_state_stored (st : StateManager) p m mid :
  is_Some (stored (create_state st p m mid).1 p m).
Proof.
  destruct (stored st p m) as [s|] eqn:E.
  - unfold stored in *. rewrite (create_state_present _ _ _ _ _ E).
    unfold stored in E. rewrite E. eauto.
  - unfold stored in *. rewrite (create_state_absent _ _ _ _ E).
    rewrite lookup_insert_eq. eauto.
Qed.

(** [create_state] never takes anything out and keeps what is stored. *)
Lemma create_state_keeps (st : StateManager) p m mid k s :
  states st !! k = Some s →
  states (create_state st p m mid).1 !! k = Some s.
Proof.
  intros Hk. destruct (stored st p m) as [s'|] eqn:E.
  - rewrite (create_state_present _ _ _ _ _ E). exact Hk.
  - rewrite (create_state_absent _ _ _ _ E).
    destruct (decide ((p, m) = k)) as [<-|Hne].
    + unfold stored in E. congruence.
    + rewrite lookup_insert_ne by exact Hne. exact Hk.
Qed.

Lemma create_state_count (st : StateManager) p m mid :
  get_state_count (create_state st p m mid).1
  = if bool_decide (is_Some (stored st p m))
    then get_state_count st else S (get_state_count st).
Proof.
  unfold get_state_count. destruct (stored st p m) as [s|] eqn:E.
  - rewrite (create_state_present _ _ _ _ _ E).
    rewrite bool_decide_eq_true_2 by eauto. reflexivity.
  - rewrite (create_state_absent _ _ _ _ E).
    rewrite bool_decide_eq_false_2 by (intros [? ?]; discriminate).
    apply map_size_insert_None. exact E.
Qed.

End StoreFacts.

(** C6, at its failing input. On an empty store, [create_state("p1", [], 1)]
    files an object with message id 1; [create_state("p1", [], 2)] then
    leaves the set as it is, so the stored object keeps message id 1, but
    the value it returns is the object it has just built, with message id 2,
    and not the stored one. *)
Theorem create_state_returns_unstored_object :
  let first :=
    state_manager.create_state state_manager.new "p1" [] (Some 1%Z) in
  let again := state_manager.create_state first.1 "p1" [] (Some 2%Z) in
  state_manager.stored again.1 "p1" [] = Some first.2
  ∧ state_manager.message_id first.2 = Some 1%Z
  ∧ state_manager.states again.1 = state_manager.states first.1
  ∧ state_manager.message_id again.2 = Some 2%Z
  ∧ Some again.2 ≠ state_manager.stored again.1 "p1" [].
Proof.
  intros first again.
  assert (Hfirst : state_manager.stored first.1 "p1" [] = Some first.2).
  { unfold state_manager.stored. subst first.
    rewrite create_state_absent by apply lookup_empty.
    apply lookup_insert_eq. }
  assert (Hsame : state_manager.states again.1 = state_manager.states first.1).
  { apply (create_state_present _ _ _ _ _ Hfirst). }
  assert (Hagain : state_manager.stored again.1 "p1" [] = Some first.2).
  { unfold state_manager.stored in *. rewrite Hsame. exact Hfirst. }
  repeat split; try assumption; try reflexivity.
  rewrite Hagain. discriminate.
Qed.

(** C7. For every store, puzzle id [p], move list [m] and message refs
    [ref1], [ref2] (different or not): the value a repeated
    [create_state(p, m, ref2)] returns is equal under [__eq__] to the value
    the first call [create_state(p, m, ref1)] returned, the values returned
    for the two refs from the same store are equal under [__eq__], and the
    repeated call does not change [get_state_count()]. *)
Theorem create_state_dedup (st : state_manager.StateManager) (p : string)
    (m : list string) (ref1 ref2 : option Z) :
  let first := state_manager.create_state st p m ref1 in
  let again := state_manager.create_state first.1 p m ref2 in
  state_manager.PuzzleState_eq again.2 first.2 = true
  ∧ state_manager.PuzzleState_eq
      (state_manager.create_state st p m ref1).2
      (state_manager.create_state st p m ref2).2 = true
  ∧ state_manager.get_state_count again.1
    = state_manager.get_state_count first.1
  ∧ state_manager.states again.1 = state_manager.states first.1.
Proof.
  intros first again. subst first again.
  destruct (create_state_stored st p m ref1) as [s Hs].
  repeat split.
  - apply PuzzleState_eq_spec. reflexivity.
  - apply PuzzleState_eq_spec. reflexivity.
  - unfold state_manager.get_state_count.
    rewrite (create_state_present _ _ _ _ _ Hs). reflexivity.
  - apply (create_state_present _ _ _ _ _ Hs).
Qed.

(** ** The opening book obeys the contract of the rules *)

Lemma book_lines_sound :
  Forall (λ e : Book.Pos * list (string * string), "0000" ∉ e.2.*1)
         Book.lines.
Proof. apply (bool_decide_unpack _). vm_compute. exact I. Qed.

Lemma book_legal_moves_sound (p : Book.Pos) :
  "0000" ∉ (Book.legal_moves p).*1.
Proof.
  unfold Book.legal_moves.
  destruct (find _ Book.lines) as [e|] eqn:E.
  - apply find_some in E as [Hin _].
    pose proof book_lines_sound as H.
    rewrite Forall_forall in H. apply H. apply list_elem_of_In. exact Hin.
  - simpl. apply not_elem_of_nil.
Qed.

#[global] Instance book_laws : ChessRulesLaws Book.rules.
Proof.
  split.
  - intros p s m. simpl. unfold Book.book_parse_san, Book.book_is_legal.
    case_bool_decide as Hnull.
    + intros [= <-]. rewrite bool_decide_eq_true_2; [discriminate|reflexivity].
    + destruct (find _ (Book.legal_moves p)) as [e|] eqn:E; [|discriminate].
      intros [= <-] _. apply find_some in E as [Hin _].
      apply bool_decide_eq_true_2. apply list_elem_of_fmap.
      exists e. split; [reflexivity|]. apply list_elem_of_In. exact Hin.
  - intros p m. simpl. unfold Book.book_is_legal.
    rewrite bool_decide_eq_true. intros Hin.
    rewrite negb_true_iff. apply bool_decide_eq_false_2. intros ->.
    exact (book_legal_moves_sound p Hin).
  - intros p m. simpl. rewrite orb_false_r, bool_decide_eq_true.
    unfold Book.mates. rewrite list_elem_of_singleton. intros ->.
    reflexivity.
Qed.

(** ** play_move *)

Section PlayMove.
Import chess_logic.
Context {R : ChessRules}.

Lemma play_move_uninitialized (self : ChessLogic) (move_str : string) :
  game_state self = None →
  play_move self move_str = (self, (INVALID_MOVE, "No puzzle initialized")).
Proof. unfold play_move. intros ->. reflexivity. Qed.

Lemma play_move_unresolved (self : ChessLogic) gs (move_str : string) :
  game_state self = Some gs →
  resolve_move (board gs) move_str = None →
  play_move self move_str
  = (self, (INVALID_MOVE, "'" +:+ move_str +:+ "' is not a valid move")).
Proof. unfold play_move. intros -> ->. reflexivity. Qed.

Lemma play_move_off_script (self : ChessLogic) gs (move_str : string) move :
  game_state self = Some gs →
  resolve_move (board gs) move_str = Some move →
  off_script self gs move = true →
  play_move self move_str
  = (self, (WRONG_MOVE, "Puzzle expects a different move")).
Proof. unfold play_move. intros -> -> ->. reflexivity. Qed.

Lemma play_move_applies (self : ChessLogic) gs (move_str : string) move :
  game_state self = Some gs →
  resolve_move (board gs) move_str = Some move →
  off_script self gs move = false →
  play_move self move_str = apply_ply self gs move.
Proof. unfold play_move. intros -> -> ->. reflexivity. Qed.

(** The four ways out of [play_move]. *)
Lemma play_move_cases (self : ChessLogic) (move_str : string) :
  (game_state self = None ∧ play_move self move_str
     = (self, (INVALID_MOVE, "No puzzle initialized")))
  ∨ (∃ gs, game_state self = Some gs
       ∧ resolve_move (board gs) move_str = None
       ∧ play_move self move_str
         = (self, (INVALID_MOVE,
                   "'" +:+ move_str +:+ "' is not a valid move")))
  ∨ (∃ gs move, game_state self = Some gs
       ∧ resolve_move (board gs) move_str = Some move
       ∧ off_script self gs move = true
       ∧ play_move self move_str
         = (self, (WRONG_MOVE, "Puzzle expects a different move")))
  ∨ (∃ gs move, game_state self = Some gs
       ∧ resolve_move (board gs) move_str = Some move
       ∧ off_script self gs move = false
       ∧ play_move self move_str = apply_ply self gs move).
Proof.
  destruct (game_state self) as [gs|] eqn:Hgs.
  - right. destruct (resolve_move (board gs) move_str) as [mv|] eqn:Hres.
    + right. destruct (off_script self gs mv) eqn:Hoff.
      * left. exists gs, mv. eauto using play_move_off_script.
      * right. exists gs, mv. eauto using play_move_applies.
    + left. exists gs. eauto using play_move_unresolved.
  - left. eauto using play_move_uninitialized.
Qed.

(** An applied ply returns SUCCESS or PUZZLE_SOLVED, nothing else. *)
Lemma apply_ply_outcome (self : ChessLogic) gs move :
  (apply_ply self gs move).2.1 = SUCCESS
  ∨ (apply_ply self gs move).2.1 = PUZZLE_SOLVED.
Proof.
  unfold apply_ply. simpl.
  destruct (_ || _ || _); simpl; [right|left]; reflexivity.
Qed.

Lemma apply_ply_state (self : ChessLogic) gs move :
  ∃ gs', game_state (apply_ply self gs move).1 = Some gs'
    ∧ board gs' = push (board gs) move
    ∧ moves_uci gs' = moves_uci gs ++ [uci move]
    ∧ current_move_index gs'
      = (if is_player_turn gs then S (current_move_index gs)
         else current_move_index gs)
    ∧ is_player_turn gs' = negb (is_player_turn gs)
    ∧ solution_moves (apply_ply self gs move).1 = solution_moves self
    ∧ puzzle_id (apply_ply self gs move).1 = puzzle_id self.
Proof. unfold apply_ply. simpl. eexists. repeat split. Qed.

(** INVALID_MOVE and WRONG_MOVE leave the engine as it was. *)
Lemma play_move_rejected (self self' : ChessLogic) (move_str msg : string) r :
  play_move self move_str = (self', (r, msg)) →
  r = INVALID_MOVE ∨ r = WRONG_MOVE → self' = self.
Proof.
  intros Hp Hr.
  destruct (play_move_cases self move_str)
    as [[_ H]|[(gs & _ & _ & H)|[(gs & mv & _ & _ & _ & H)
       |(gs & mv & _ & _ & _ & H)]]];
    rewrite H in Hp.
  1-3: congruence.
  pose proof (apply_ply_outcome self gs mv) as Ho.
  rewrite Hp in Ho. simpl in Ho. destruct Hr, Ho; congruence.
Qed.

(** SUCCESS and PUZZLE_SOLVED come from an applied ply. *)
Lemma play_move_accepted (self self' : ChessLogic) (move_str msg : string) r :
  play_move self move_str = (self', (r, msg)) →
  r = SUCCESS ∨ r = PUZZLE_SOLVED →
  ∃ gs move, game_state self = Some gs
    ∧ resolve_move (board gs) move_str = Some move
    ∧ off_script self gs move = false
    ∧ apply_ply self gs move = (self', (r, msg)).
Proof.
  intros Hp Hr.
  destruct (play_move_cases self move_str)
    as [[_ H]|[(gs & _ & _ & H)|[(gs & mv & _ & _ & _ & H)
       |(gs & mv & Hgs & Hres & Hoff & H)]]];
    rewrite H in Hp.
  1-3: destruct Hr; congruence.
  exists gs, mv. eauto.
Qed.

(** A string whose move, in either notation, is not legal resolves to
    nothing. *)
Lemma resolve_move_illegal {L : ChessRulesLaws R} (b : Board) (s : string) :
  (∀ m, parse_san (position b) s = Some m
        ∨ (parse_san (position b) s = None ∧ from_uci s = Some m) →
        is_legal (position b) m = false) →
  resolve_move b s = None.
Proof.
  intros H. unfold resolve_move, parse_move.
  destruct (parse_san (position b) s) as [m|] eqn:Hsan.
  - destruct (move_bool m) eqn:Hb; [|reflexivity].
    specialize (H m (or_introl eq_refl)).
    rewrite (parse_san_legal _ _ _ Hsan Hb) in H. discriminate.
  - destruct (from_uci s) as [m|]; [|reflexivity].
    rewrite (H m (or_intror (conj eq_refl eq_refl))). reflexivity.
Qed.

(** A string whose move, in either notation, is legal resolves to it. *)
Lemma resolve_move_legal {L : ChessRulesLaws R} (b : Board) (s : string) m :
  parse_san (position b) s = Some m
  ∨ (parse_san (position b) s = None ∧ from_uci s = Some m) →
  is_legal (position b) m = true →
  resolve_move b s = Some m.
Proof.
  intros H Hlegal. unfold resolve_move, parse_move.
  destruct H as [->|[-> ->]]; rewrite ?Hlegal;
    rewrite (legal_not_null _ _ Hlegal); reflexivity.
Qed.

(** What resolves is legal. *)
Lemma resolve_move_sound {L : ChessRulesLaws R} (b : Board) (s : string) m :
  resolve_move b s = Some m → is_legal (position b) m = true.
Proof.
  unfold resolve_move, parse_move.
  destruct (parse_san (position b) s) as [m'|] eqn:Hsan.
  - destruct (move_bool m') eqn:Hb; [|discriminate].
    intros [= <-]. eauto using parse_san_legal.
  - destruct (from_uci s) as [m'|]; [|discriminate].
    destruct (is_legal (position b) m') eqn:Hl; [|discriminate].
    destruct (move_bool m'); [|discriminate]. intros [= <-]. exact Hl.
Qed.

(** C8. [play_move] rejects without touching anything: with no puzzle
    loaded it returns INVALID_MOVE with the message "No puzzle initialized"
    and the engine, store included, is as before; when the string parses in
    neither notation, or the move it parses to is not legal in the current
    position, it returns INVALID_MOVE and the engine is as before; when the
    move is legal, it is the player's turn, the index is short of the end of
    the solution and the move differs from [solution[index]], it returns
    WRONG_MOVE and the engine is as before. *)
Theorem play_move_error_atomicity {L : ChessRulesLaws R}
    (self : ChessLogic) (move_str : string) :
  (game_state self = None →
   play_move self move_str
   = (self, (INVALID_MOVE, "No puzzle initialized")))
  ∧ (∀ gs, game_state self = Some gs →
       (∀ m, parse_san (position (board gs)) move_str = Some m
             ∨ (parse_san (position (board gs)) move_str = None
                ∧ from_uci move_str = Some m) →
             is_legal (position (board gs)) m = false) →
       play_move self move_str
       = (self, (INVALID_MOVE,
                 "'" +:+ move_str +:+ "' is not a valid move")))
  ∧ (∀ gs m, game_state self = Some gs →
       parse_san (position (board gs)) move_str = Some m
       ∨ (parse_san (position (board gs)) move_str = None
          ∧ from_uci move_str = Some m) →
       is_legal (position (board gs)) m = true →
       is_player_turn gs = true →
       current_move_index gs < length (solution_moves self) →
       uci m ≠ nth (current_move_index gs) (solution_moves self) "" →
       play_move self move_str
       = (self, (WRONG_MOVE, "Puzzle expects a different move"))).
Proof.
  split; [|split].
  - apply play_move_uninitialized.
  - intros gs Hgs Hill. apply (play_move_unresolved _ gs); [exact Hgs|].
    apply resolve_move_illegal. exact Hill.
  - intros gs m Hgs Hparse Hlegal Hturn Hidx Hne.
    apply (play_move_off_script _ gs _ m); [exact Hgs| |].
    + apply resolve_move_legal; assumption.
    + unfold off_script. rewrite Hturn. simpl.
      apply Nat.ltb_lt in Hidx. rewrite Hidx. simpl.
      rewrite bool_decide_eq_false_2 by exact Hne. reflexivity.
Qed.

End PlayMove.

(** C8 on the opening book: no puzzle loaded; then, in the initial position
    with solution e2e4 e7e5, the illegal "e2e5" and the legal but
    unscripted "d2d4". *)
Lemma play_move_error_atomicity_witness :
  chess_logic.play_move Book.engine "e2e4"
  = (Book.engine, (chess_logic.INVALID_MOVE, "No puzzle initialized"))
  ∧ chess_logic.play_move
      (Book.session Book.initial_fen ["e2e4"; "e7e5"]) "e2e5"
    = (Book.session Book.initial_fen ["e2e4"; "e7e5"],
       (chess_logic.INVALID_MOVE, "'e2e5' is not a valid move"))
  ∧ chess_logic.play_move
      (Book.session Book.initial_fen ["e2e4"; "e7e5"]) "d2d4"
    = (Book.session Book.initial_fen ["e2e4"; "e7e5"],
       (chess_logic.WRONG_MOVE, "Puzzle expects a different move")).
Proof.
  split; [|split].
  - apply (play_move_error_atomicity (L:=book_laws) Book.engine "e2e4").
    reflexivity.
  - eapply (proj1 (proj2 (play_move_error_atomicity (L:=book_laws)
              (Book.session Book.initial_fen ["e2e4"; "e7e5"]) "e2e5"))).
    + reflexivity.
    + intros m [H|[_ H]]; vm_compute in H; [discriminate|].
      injection H as <-. reflexivity.
  - eapply (proj2 (proj2 (play_move_error_atomicity (L:=book_laws)
              (Book.session Book.initial_fen ["e2e4"; "e7e5"]) "d2d4"))
              _ "d2d4").
    + reflexivity.
    + left. reflexivity.
    + reflexivity.
    + reflexivity.
    + simpl. lia.
    + vm_compute. discriminate.
Defined.

(** ** Turn alternation *)

Section Turns.
Import chess_logic.
Context {R : ChessRules}.

Lemma even_len_snoc {A} (l : list A) (x : A) :
  even_len (l ++ [x]) = negb (even_len l).
Proof.
  unfold even_len. rewrite length_app. cbn [length].
  pose proof (Nat.mod_upper_bound (length l) 2 ltac:(lia)) as Hlt.
  rewrite <- Nat.Div0.add_mod_idemp_l.
  destruct (length l mod 2) as [|[|k]]; [reflexivity|reflexivity|lia].
Qed.

Lemma initialize_puzzle_consistent (self0 self : ChessLogic) pid fen sol :
  initialize_puzzle self0 pid fen sol = Ok self →
  ∃ gs, game_state self = Some gs ∧ consistent gs
    ∧ moves_uci gs = [] ∧ current_move_index gs = 0
    ∧ is_player_turn gs = true ∧ puzzle_solved gs = false
    ∧ solution_moves self = sol.
Proof.
  unfold initialize_puzzle. destruct (board_from_fen fen); [|discriminate].
  intros [= <-]. simpl. eexists. repeat split.
Qed.

Lemma apply_ply_consistent (self : ChessLogic) gs move :
  consistent gs →
  ∃ gs', game_state (apply_ply self gs move).1 = Some gs' ∧ consistent gs'.
Proof.
  intros [Hturn Hlen].
  destruct (apply_ply_state self gs move)
    as (gs' & Hgs' & Hb & Hm & _ & Ht & _).
  exists gs'. split; [exact Hgs'|]. split.
  - rewrite Ht, Hm, even_len_snoc, Hturn. reflexivity.
  - rewrite Hb, Hm, length_app. simpl. lia.
Qed.

Lemma play_move_consistent (self : ChessLogic) gs (move_str : string) :
  game_state self = Some gs → consistent gs →
  ∃ gs', game_state (play_move self move_str).1 = Some gs' ∧ consistent gs'.
Proof.
  intros Hgs Hc.
  destruct (play_move_cases self move_str)
    as [[Hn _]|[(gs1 & _ & _ & H)|[(gs1 & mv & _ & _ & _ & H)
       |(gs1 & mv & Hgs1 & _ & _ & H)]]]; rewrite ?H; simpl.
  - congruence.
  - eauto.
  - eauto.
  - assert (gs1 = gs) as -> by congruence.
    apply apply_ply_consistent. exact Hc.
Qed.

(** The loop of [rollback_moves] pops [min n (len history)] plies from the
    board and from the history alike, and raises nothing. *)
Lemma rollback_loop_spec (n : nat) (b : Board) (moves : list string)
    (k : nat) :
  length (move_stack b) = length moves →
  ∃ b', rollback_loop n b moves k
        = Ok (b', take (length moves - n `min` length moves) moves,
              k + n `min` length moves)
    ∧ length (move_stack b') = length moves - n `min` length moves.
Proof.
  revert b moves k. induction n as [|n IH]; intros b moves k Hlen.
  - simpl. exists b. rewrite Nat.sub_0_r, Nat.add_0_r, firstn_all.
    split; [reflexivity|lia].
  - simpl. destruct b as [p st]. simpl in *.
    destruct st as [|[m p'] st].
    + simpl in Hlen. destruct moves; [|discriminate]. simpl.
      exists {| position := p; move_stack := [] |}.
      rewrite Nat.add_0_r. split; reflexivity.
    + destruct moves as [|x moves]; [discriminate|].
      assert (Hrl : length (removelast (x :: moves)) = length moves).
      { rewrite removelast_firstn_len, length_take. cbn [length]. lia. }
      injection Hlen as Hlen.
      destruct (IH {| position := p'; move_stack := st |}
                  (removelast (x :: moves)) (S k)) as (b' & Heq & Hb').
      { cbn [move_stack]. lia. }
      exists b'. unfold pop, list_pop. cbn [move_stack bind].
      rewrite Heq, Hb', Hrl. cbn [length]. split; [|lia].
      f_equal. f_equal; [f_equal|lia].
      rewrite removelast_firstn_len. cbn [length Init.Nat.pred].
      rewrite take_take. f_equal. lia.
Qed.

Lemma rollback_moves_consistent (self : ChessLogic) gs (count : Z) :
  game_state self = Some gs → consistent gs →
  ∃ self' r gs', rollback_moves self count = Ok (self', r)
    ∧ game_state self' = Some gs' ∧ consistent gs'
    ∧ solution_moves self' = solution_moves self.
Proof.
  intros Hgs [Hturn Hlen]. unfold rollback_moves. rewrite Hgs.
  destruct (count <=? 0)%Z.
  - exists self, false, gs. repeat split; assumption.
  - destruct (rollback_loop_spec (Z.to_nat count) (board gs) (moves_uci gs)
                0 Hlen) as (b' & -> & Hb').
    cbn [bind]. eexists _, _, _. split; [reflexivity|]. simpl.
    split; [reflexivity|]. repeat split. simpl.
    rewrite Hb', length_take. lia.
Qed.

Lemma call_consistent (self : ChessLogic) gs (c : Call) :
  game_state self = Some gs → consistent gs →
  ∃ self' gs', call self c = Ok self'
    ∧ game_state self' = Some gs' ∧ consistent gs'.
Proof.
  intros Hgs Hc. destruct c as [move_str|count]; simpl.
  - destruct (play_move_consistent self gs move_str Hgs Hc) as (gs' & ? & ?).
    eauto.
  - destruct (rollback_moves_consistent self gs count Hgs Hc)
      as (self' & r & gs' & -> & ? & ? & _).
    simpl. eauto.
Qed.

Lemma calls_consistent (cs : list Call) (self : ChessLogic) gs :
  game_state self = Some gs → consistent gs →
  ∃ self' gs', calls self cs = Ok self'
    ∧ game_state self' = Some gs' ∧ consistent gs'.
Proof.
  revert self gs. induction cs as [|c cs IH]; intros self gs Hgs Hc.
  - simpl. eauto.
  - simpl. destruct (call_consistent self gs c Hgs Hc)
      as (self1 & gs1 & -> & Hgs1 & Hc1).
    simpl. eauto.
Qed.

(** C9. From [initialize_puzzle], after any sequence of [play_move] and
    [rollback_moves] calls (every one of which returns), [is_player_turn]
    equals [len(moves_uci) % 2 == 0]. *)
Theorem turn_alternation (self0 self : ChessLogic) (pid fen : string)
    (solution : list string) (cs : list Call) :
  initialize_puzzle self0 pid fen solution = Ok self →
  ∃ self' gs, calls self cs = Ok self'
    ∧ game_state self' = Some gs
    ∧ is_player_turn gs = even_len (moves_uci gs).
Proof.
  intros Hinit.
  destruct (initialize_puzzle_consistent _ _ _ _ _ Hinit)
    as (gs & Hgs & Hc & _).
  destruct (calls_consistent cs self gs Hgs Hc)
    as (self' & gs' & Hcalls & Hgs' & Hturn & _).
  eauto.
Qed.

End Turns.

(** C9 on the opening book: two plies of the Open Game, a rejected move,
    one ply rolled back. *)
Lemma turn_alternation_witness :
  ∃ self' gs,
    chess_logic.calls (Book.session Book.initial_fen ["e2e4"; "e7e5"])
      [chess_logic.CallPlayMove "e2e4"; chess_logic.CallPlayMove "e7e5";
       chess_logic.CallPlayMove "e2e5"; chess_logic.CallRollback 1]
    = Ok self'
    ∧ chess_logic.game_state self' = Some gs
    ∧ chess_logic.is_player_turn gs
      = chess_logic.even_len (chess_logic.moves_uci gs).
Proof.
  apply (turn_alternation Book.engine _ "p1" Book.initial_fen
           ["e2e4"; "e7e5"]).
  reflexivity.
Defined.

(** ** play_move_tree *)

Section Tree.
Import chess_logic.
Context {R : ChessRules}.

(** An iteration never raises: [game_state] is read only after a SUCCESS,
    which an engine without a game state does not return. *)
Lemma tree_body_total (self : ChessLogic) (results : list string)
    (move_str : string) :
  ∃ fl self' r results',
    tree_body self results move_str = Ok (fl, (self', r, results')).
Proof.
  unfold tree_body.
  destruct (play_move self move_str) as [self1 [r msg]] eqn:Hp.
  destruct r; cbn [stops]; try (eexists _, _, _, _; reflexivity).
  rewrite bool_decide_eq_true_2 by reflexivity.
  destruct (play_move_accepted _ _ _ _ _ Hp (or_introl eq_refl))
    as (gs & mv & _ & _ & _ & Happ).
  destruct (apply_ply_state self gs mv) as (gs1 & Hgs1 & _).
  rewrite Happ in Hgs1. simpl in Hgs1. rewrite Hgs1.
  destruct (_ && _); [|eexists _, _, _, _; reflexivity].
  destruct (play_move self1 _) as [self2 [r2 msg2]].
  destruct (bool_decide _); eexists _, _, _, _; reflexivity.
Qed.

(** The loop never raises, and once it has run an iteration [result] is
    assigned. *)
Lemma tree_loop_total (moves : list string) (self : ChessLogic)
    (result : option MoveResult) (results : list string) :
  ∃ fl self' result' results',
    tree_loop self result results moves
    = Ok (fl, (self', result', results'))
    ∧ (is_Some result ∨ moves ≠ [] → is_Some result').
Proof.
  revert self result results.
  induction moves as [|m rest IH]; intros self result results.
  - simpl. eexists _, _, _, _. split; [reflexivity|].
    intros [H|H]; [exact H|congruence].
  - simpl. destruct (tree_body_total self results m)
      as (fl & self1 & r & results1 & ->).
    cbn [bind]. destruct fl.
    + eexists _, _, _, _. split; [reflexivity|]. eauto.
    + destruct (IH self1 (Some r) results1)
        as (fl' & self' & result' & results' & -> & Hsome).
      eexists _, _, _, _. split; [reflexivity|]. eauto.
Qed.

(** C10. On an empty move list [play_move_tree] raises
    [UnboundLocalError] instead of returning: [result] is assigned in the
    loop body only and the loop body never runs. On every non-empty list it
    returns an outcome and a message list. *)
Theorem play_move_tree_empty_unbound :
  (∀ self : ChessLogic, play_move_tree self [] = Raise UnboundLocalError)
  ∧ (∀ (self : ChessLogic) (m : string) (rest : list string),
       ∃ self' r msgs, play_move_tree self (m :: rest) = Ok (self', (r, msgs))).
Proof.
  split.
  - intros self. reflexivity.
  - intros self m rest. unfold play_move_tree.
    destruct (tree_loop_total (m :: rest) self None [])
      as (fl & self' & result' & results' & -> & Hsome).
    cbn [bind]. destruct Hsome as [r ->]; [right; discriminate|].
    eauto.
Qed.




End Tree.

Section TreeStops.
Import chess_logic.
Context {R : ChessRules}.


End TreeStops.



(** ** After PUZZLE_SOLVED *)

Section Solved.
Import chess_logic.
Context {R : ChessRules}.

(** When an applied ply returns PUZZLE_SOLVED: the index has reached the
    end of the solution or the new position is terminal, and the flag is
    set. *)
Lemma apply_ply_solved (self self' : ChessLogic) gs move (msg : string) :
  apply_ply self gs move = (self', (PUZZLE_SOLVED, msg)) →
  ∃ gs', game_state self' = Some gs'
    ∧ puzzle_solved gs' = true
    ∧ solution_moves self' = solution_moves self
    ∧ (length (solution_moves self') ≤ current_move_index gs'
       ∨ is_checkmate (position (board gs'))
         || is_stalemate (position (board gs')) = true).
Proof.
  unfold apply_ply.
  destruct (_ || _ || _) eqn:Hsolved; [|intros [= _ ?]; discriminate].
  intros [= <- _]. eexists. cbn [game_state puzzle_solved solution_moves
    current_move_index board].
  repeat split.
  cbn [game_state puzzle_solved solution_moves current_move_index board].
  apply orb_true_iff in Hsolved as [Hs|Hs].
  - apply orb_true_iff in Hs as [Hs|Hs].
    + left. apply Nat.leb_le. exact Hs.
    + right. rewrite Hs. reflexivity.
  - right. rewrite Hs. apply orb_true_r.
Qed.

(** With the solution consumed, every move that resolves is applied, and
    PUZZLE_SOLVED is returned again. *)
Lemma play_move_past_solution (self : ChessLogic) gs (move_str : string) mv :
  game_state self = Some gs →
  length (solution_moves self) ≤ current_move_index gs →
  resolve_move (board gs) move_str = Some mv →
  ∃ self' gs' msg,
    play_move self move_str = (self', (PUZZLE_SOLVED, msg))
    ∧ game_state self' = Some gs'
    ∧ moves_uci gs' = moves_uci gs ++ [uci mv]
    ∧ board gs' = push (board gs) mv
    ∧ is_player_turn gs' = negb (is_player_turn gs)
    ∧ current_move_index gs'
      = (if is_player_turn gs then S (current_move_index gs)
         else current_move_index gs)
    ∧ puzzle_solved gs' = true
    ∧ state_manager self'
      = notify_store (state_manager self) (puzzle_id self)
          (moves_uci gs ++ [uci mv]).
Proof.
  intros Hgs Hlen Hres.
  assert (Hoff : off_script self gs mv = false).
  { unfold off_script. apply Nat.ltb_ge in Hlen. rewrite Hlen.
    rewrite andb_false_r. reflexivity. }
  rewrite (play_move_applies _ _ _ _ Hgs Hres Hoff). unfold apply_ply.
  assert (Hs : (length (solution_moves self)
                <=? (if is_player_turn gs then S (current_move_index gs)
                     else current_move_index gs)) = true).
  { apply Nat.leb_le. destruct (is_player_turn gs); lia. }
  rewrite Hs. cbn [orb]. eexists _, _, _. split; [reflexivity|].
  cbn [game_state moves_uci board is_player_turn current_move_index
       puzzle_solved state_manager]. repeat split.
Qed.

(** What [play_move] tells the store after a ply. *)
Lemma notify_store_skips (sm : option state_manager.StateManager)
    (pid : option string) (moves : list string) :
  sm = None ∨ pid = None ∨ pid = Some "" →
  notify_store sm pid moves = sm.
Proof.
  unfold notify_store. intros [->|[->| ->]]; [reflexivity| |].
  - destruct sm; reflexivity.
  - destruct sm; [|reflexivity].
    rewrite bool_decide_eq_true_2 by reflexivity. reflexivity.
Qed.

Lemma notify_store_creates (st : state_manager.StateManager) (p : string)
    (moves : list string) :
  p ≠ "" →
  ∃ st2, notify_store (Some st) (Some p) moves = Some st2
    ∧ state_manager.state_exists st2 p moves = true
    ∧ state_manager.get_current_state st2
      = Some (state_manager.mkPuzzleState p moves None)
    ∧ (∀ p' m' x, state_manager.stored st p' m' = Some x →
         state_manager.stored st2 p' m' = Some x)
    ∧ state_manager.get_state_count st2
      = (if state_manager.state_exists st p moves
         then state_manager.get_state_count st
         else S (state_manager.get_state_count st)).
Proof.
  intros Hne. unfold notify_store.
  rewrite bool_decide_eq_false_2 by exact Hne.
  eexists. split; [reflexivity|]. split; [|split; [|split]].
  - apply bool_decide_eq_true_2. apply create_state_stored.
  - reflexivity.
  - intros p' m' x. apply create_state_keeps.
  - apply create_state_count.
Qed.

(** [play_move] never reads the solved flag: with the flag set or cleared
    it returns the same outcome and message and leaves the same engine, the
    flag itself apart. *)
Lemma play_move_ignores_solved (self : ChessLogic) (flag : bool)
    (move_str : string) :
  (play_move (set_solved flag self) move_str).2
  = (play_move self move_str).2
  ∧ set_solved true (play_move (set_solved flag self) move_str).1
    = set_solved true (play_move self move_str).1.
Proof.
  unfold play_move, set_solved.
  destruct (game_state self) as [gs|] eqn:Hgs; cbn [game_state board].
  2:{ cbn [fst snd game_state]. rewrite Hgs. split; reflexivity. }
  destruct (resolve_move (board gs) move_str) as [mv|].
  2:{ cbn [fst snd game_state]. rewrite Hgs. split; reflexivity. }
  unfold off_script.
  cbn [is_player_turn current_move_index solution_moves].
  destruct (is_player_turn gs && _ && _).
  { cbn [fst snd game_state]. rewrite Hgs. split; reflexivity. }
  unfold apply_ply.
  cbn [fst snd game_state board moves_uci current_move_index
       is_player_turn puzzle_solved solution_moves state_manager
       puzzle_id].
  destruct (_ || _ || _); split; reflexivity.
Qed.

(** C3, as the code has it. [play_move] never reads the solved flag: what
    a call does with the flag set is what it does with the flag cleared,
    the flag itself apart. Once it has returned PUZZLE_SOLVED (the flag is
    then set, and the index has reached the end of the solution or the
    position is checkmate or stalemate), a further [play_move] leaves the
    engine, store included, as it was when its string does not resolve to a
    legal move, which is the case of every string in a checkmate or
    stalemate position; when the solution is consumed and the string
    resolves, the move is applied and PUZZLE_SOLVED is returned again: the
    board, the history and the turn change, the index advances on the
    player's turn, the flag stays set, and the store is told, so that with
    a store and a puzzle id that is not empty the state of the new history
    exists afterwards, is the current one, and is counted once. *)
Theorem play_move_after_solved {L : ChessRulesLaws R}
    (self self1 : ChessLogic) (m msg : string) :
  play_move self m = (self1, (PUZZLE_SOLVED, msg)) →
  ∃ gs1, game_state self1 = Some gs1
    ∧ puzzle_solved gs1 = true
    ∧ (length (solution_moves self1) ≤ current_move_index gs1
       ∨ is_checkmate (position (board gs1))
         || is_stalemate (position (board gs1)) = true)
    ∧ ∀ m2 : string,
        (resolve_move (board gs1) m2 = None →
         play_move self1 m2
         = (self1, (INVALID_MOVE, "'" +:+ m2 +:+ "' is not a valid move")))
        ∧ (is_checkmate (position (board gs1))
           || is_stalemate (position (board gs1)) = true →
           play_move self1 m2
           = (self1,
              (INVALID_MOVE, "'" +:+ m2 +:+ "' is not a valid move")))
        ∧ (∀ mv,
             length (solution_moves self1) ≤ current_move_index gs1 →
             resolve_move (board gs1) m2 = Some mv →
             ∃ self2 gs2 msg2,
               play_move self1 m2 = (self2, (PUZZLE_SOLVED, msg2))
               ∧ game_state self2 = Some gs2
               ∧ moves_uci gs2 = moves_uci gs1 ++ [uci mv]
               ∧ board gs2 = push (board gs1) mv
               ∧ is_player_turn gs2 = negb (is_player_turn gs1)
               ∧ self2 ≠ self1
               ∧ current_move_index gs2
                 = (if is_player_turn gs1 then S (current_move_index gs1)
                    else current_move_index gs1)
               ∧ puzzle_solved gs2 = true
               ∧ (state_manager self1 = None ∨ puzzle_id self1 = None
                  ∨ puzzle_id self1 = Some "" →
                  state_manager self2 = state_manager self1)
               ∧ (∀ st p, state_manager self1 = Some st →
                    puzzle_id self1 = Some p → p ≠ "" →
                    ∃ st2, state_manager self2 = Some st2
                      ∧ state_manager.state_exists st2 p (moves_uci gs2)
                        = true
                      ∧ state_manager.get_current_state st2
                        = Some (state_manager.mkPuzzleState p
                                  (moves_uci gs2) None)
                      ∧ (∀ p' m' x,
                           state_manager.stored st p' m' = Some x →
                           state_manager.stored st2 p' m' = Some x)
                      ∧ state_manager.get_state_count st2
                        = (if state_manager.state_exists st p
                                (moves_uci gs2)
                           then state_manager.get_state_count st
                           else S (state_manager.get_state_count st))))
        ∧ (∀ flag,
             (play_move (set_solved flag self1) m2).2
             = (play_move self1 m2).2
             ∧ set_solved true (play_move (set_solved flag self1) m2).1
               = set_solved true (play_move self1 m2).1).
Proof.
  intros Hp.
  destruct (play_move_accepted _ _ _ _ _ Hp (or_intror eq_refl))
    as (gs & mv & _ & _ & _ & Happ).
  destruct (apply_ply_solved _ _ _ _ _ Happ)
    as (gs1 & Hgs1 & Hflag & _ & Hwhy).
  exists gs1. split; [exact Hgs1|]. split; [exact Hflag|].
  split; [exact Hwhy|]. intros m2. split; [|split; [|split]].
  - intros Hres. apply (play_move_unresolved _ gs1); assumption.
  - intros Hterm. apply (play_move_unresolved _ gs1); [exact Hgs1|].
    destruct (resolve_move (board gs1) m2) as [mv2|] eqn:Hres;
      [|reflexivity].
    apply resolve_move_sound in Hres.
    rewrite (terminal_no_legal _ mv2 Hterm) in Hres. discriminate.
  - intros mv2 Hlen Hres.
    destruct (play_move_past_solution _ _ _ _ Hgs1 Hlen Hres)
      as (self2 & gs2 & msg2 & Hp2 & Hgs2 & Hm & Hb & Ht & Hi & Hf & Hst).
    exists self2, gs2, msg2.
    split; [exact Hp2|]. split; [exact Hgs2|]. split; [exact Hm|].
    split; [exact Hb|]. split; [exact Ht|]. split.
    { intros ->. rewrite Hgs1 in Hgs2. injection Hgs2 as <-.
      apply (f_equal length) in Hm. rewrite length_app in Hm. simpl in Hm.
      lia. }
    split; [exact Hi|]. split; [exact Hf|]. rewrite Hst, Hm. split.
    + apply notify_store_skips.
    + intros st p -> -> Hne. apply notify_store_creates. exact Hne.
  - intros flag. apply play_move_ignores_solved.
Qed.

End Solved.

(** C3 on the opening book: fool's mate. The fourth ply, "d8h4", returns
    PUZZLE_SOLVED by checkmate with the solution not consumed; after it
    [play_move] rejects every string, here "e2e4", and changes nothing. *)
Lemma play_move_after_solved_witness :
  chess_logic.play_move
    (Book.played
       (Book.played (Book.session Book.initial_fen
                       ["f2f3"; "g2g4"; "a2a3"; "a7a6"])
          ["f2f3"; "e7e5"; "g2g4"]) ["d8h4"]) "e2e4"
  = (Book.played
       (Book.played (Book.session Book.initial_fen
                       ["f2f3"; "g2g4"; "a2a3"; "a7a6"])
          ["f2f3"; "e7e5"; "g2g4"]) ["d8h4"],
     (chess_logic.INVALID_MOVE, "'e2e4' is not a valid move")).
Proof.
  destruct (play_move_after_solved (L:=book_laws)
              (Book.played (Book.session Book.initial_fen
                              ["f2f3"; "g2g4"; "a2a3"; "a7a6"])
                 ["f2f3"; "e7e5"; "g2g4"])
              (Book.played
                 (Book.played (Book.session Book.initial_fen
                                 ["f2f3"; "g2g4"; "a2a3"; "a7a6"])
                    ["f2f3"; "e7e5"; "g2g4"]) ["d8h4"])
              "d8h4" "Puzzle solved with Qh4#!")
    as (gs1 & Hgs1 & _ & _ & Hall).
  - reflexivity.
  - apply (Hall "e2e4").
    assert (Hmate :
      match chess_logic.game_state
              (Book.played
                 (Book.played (Book.session Book.initial_fen
                                 ["f2f3"; "g2g4"; "a2a3"; "a7a6"])
                    ["f2f3"; "e7e5"; "g2g4"]) ["d8h4"]) with
      | Some g =>
        is_checkmate (chess_logic.position (chess_logic.board g))
        || is_stalemate (chess_logic.position (chess_logic.board g))
      | None => false
      end = true) by reflexivity.
    rewrite Hgs1 in Hmate. exact Hmate.
Defined.

(** C3 as stated fails on the code. In the initial position with the
    one-ply solution e2e4, "e2e4" returns PUZZLE_SOLVED; a further
    [play_move("e7e5")] is applied all the same: the history grows from one
    ply to two, the store from one state to two, and the engine is not what
    it was. *)
Lemma play_move_after_solved_mutates :
  (chess_logic.play_move (Book.session Book.initial_fen ["e2e4"]) "e2e4").2
  = (chess_logic.PUZZLE_SOLVED, "Puzzle solved with e4!")
  ∧ Book.history (Book.played (Book.session Book.initial_fen ["e2e4"])
                    ["e2e4"]) = ["e2e4"]
  ∧ Book.count (Book.played (Book.session Book.initial_fen ["e2e4"])
                  ["e2e4"]) = 1
  ∧ (chess_logic.play_move
       (Book.played (Book.session Book.initial_fen ["e2e4"]) ["e2e4"])
       "e7e5").2
    = (chess_logic.PUZZLE_SOLVED, "Puzzle solved with e5!")
  ∧ Book.history
      (chess_logic.play_move
         (Book.played (Book.session Book.initial_fen ["e2e4"]) ["e2e4"])
         "e7e5").1 = ["e2e4"; "e7e5"]
  ∧ Book.count
      (chess_logic.play_move
         (Book.played (Book.session Book.initial_fen ["e2e4"]) ["e2e4"])
         "e7e5").1 = 2
  ∧ (chess_logic.play_move
       (Book.played (Book.session Book.initial_fen ["e2e4"]) ["e2e4"])
       "e7e5").1
    ≠ Book.played (Book.session Book.initial_fen ["e2e4"]) ["e2e4"].
Proof.
  repeat split; try reflexivity.
  intros H. apply (f_equal Book.history) in H. discriminate H.
Qed.

(** ** load_from_state *)

Section Resume.
Import chess_logic.
Context {R : ChessRules}.

(** The replay of a prefix whose strings parse and whose moves pass the
    assertion of [push]: the moves are pushed one after the other, whatever
    they are, and the loop goes on with the rest. *)
Lemma replay_loop_prefix (pre rest : list string) (mvs : list Move)
    (b : Board) :
  mapM from_uci pre = Some mvs →
  pushable_line (position b) mvs = true →
  replay_loop b (pre ++ rest) = replay_loop (foldl push b mvs) rest.
Proof.
  revert mvs b. induction pre as [|s pre IH]; intros mvs b Hm Hp.
  - injection Hm as <-. reflexivity.
  - cbn [mapM] in Hm. destruct (from_uci s) as [m|] eqn:Hs; [|discriminate].
    cbn [mbind option_bind] in Hm.
    destruct (mapM from_uci pre) as [ms|] eqn:Hms; [|discriminate].
    injection Hm as <-. cbn [pushable_line] in Hp.
    apply andb_true_iff in Hp as [Hp1 Hp2].
    cbn [app replay_loop]. rewrite Hs. unfold checked_push. rewrite Hp1.
    cbn [bind foldl]. apply (IH ms); [reflexivity|exact Hp2].
Qed.

Lemma foldl_push_apply_move (mvs : list Move) (b : Board) :
  position (foldl push b mvs) = foldl apply_move (position b) mvs.
Proof.
  revert b. induction mvs as [|m mvs IH]; intros b; [reflexivity|].
  cbn [foldl]. rewrite IH. reflexivity.
Qed.

Lemma pushable_line_snoc (p : Position) (mvs : list Move) (m : Move) :
  pushable_line p (mvs ++ [m])
  = pushable_line p mvs && pushable (foldl apply_move p mvs) m.
Proof.
  revert p. induction mvs as [|x mvs IH]; intros p;
    cbn [app pushable_line foldl].
  - rewrite andb_true_r. reflexivity.
  - rewrite IH, andb_assoc. reflexivity.
Qed.

(** Every stored history either parses and pushes to its end, or has a
    first string that does not parse or whose move fails the assertion of
    [push]. *)
Lemma replay_cases (moves : list string) (p : Position) :
  (∃ mvs, mapM from_uci moves = Some mvs ∧ pushable_line p mvs = true)
  ∨ (∃ pre s rest mvs,
       moves = pre ++ s :: rest
       ∧ mapM from_uci pre = Some mvs
       ∧ pushable_line p mvs = true
       ∧ (from_uci s = None
          ∨ ∃ m, from_uci s = Some m
              ∧ pushable (foldl apply_move p mvs) m = false)).
Proof.
  revert p. induction moves as [|s moves IH]; intros p.
  - left. exists []. split; reflexivity.
  - destruct (from_uci s) as [m|] eqn:Hs.
    + destruct (pushable p m) eqn:Hp.
      * destruct (IH (apply_move p m))
          as [(mvs & Hm & Hl)|(pre & s' & rest & mvs & -> & Hm & Hl & Hwhy)].
        -- left. exists (m :: mvs). cbn [mapM pushable_line].
           rewrite Hs, Hm, Hp, Hl. split; reflexivity.
        -- right. exists (s :: pre), s', rest, (m :: mvs).
           cbn [mapM pushable_line foldl]. rewrite Hs, Hm, Hp, Hl.
           repeat split. exact Hwhy.
      * right. exists [], s, moves, []. repeat split. right. eauto.
    + right. exists [], s, moves, []. repeat split. left. exact Hs.
Qed.

Lemma replay_loop_ok (moves : list string) (mvs : list Move) (b : Board) :
  mapM from_uci moves = Some mvs →
  pushable_line (position b) mvs = true →
  replay_loop b moves = Ok (foldl push b mvs).
Proof.
  intros Hm Hl. rewrite <- (app_nil_r moves).
  rewrite (replay_loop_prefix _ [] mvs b Hm Hl). reflexivity.
Qed.

Lemma replay_loop_fails (pre rest : list string) (s : string)
    (mvs : list Move) (b : Board) :
  mapM from_uci pre = Some mvs →
  pushable_line (position b) mvs = true →
  (from_uci s = None →
   replay_loop b (pre ++ s :: rest) = Raise InvalidMoveError)
  ∧ (∀ m, from_uci s = Some m →
       pushable (foldl apply_move (position b) mvs) m = false →
       replay_loop b (pre ++ s :: rest) = Raise AssertionError).
Proof.
  intros Hm Hl. rewrite (replay_loop_prefix _ (s :: rest) mvs b Hm Hl).
  cbn [replay_loop]. split.
  - intros ->. reflexivity.
  - intros m -> Hp. unfold checked_push. rewrite foldl_push_apply_move, Hp.
    reflexivity.
Qed.

Lemma foldl_push_stack (mvs : list Move) (b : Board) :
  length (move_stack (foldl push b mvs))
  = length mvs + length (move_stack b).
Proof.
  revert b. induction mvs as [|m mvs IH]; intros b; [reflexivity|].
  cbn [foldl]. rewrite IH. simpl. lia.
Qed.

(** C4, as the code has it. [load_from_state] replays the stored history
    onto a fresh board from the start position by parsing each stored string
    as coordinate notation and pushing the move; legality is not checked and
    there is no CorruptHistory error. When every stored string parses and
    every move is from a square that holds a piece, legal or not, it
    succeeds, with the history as stored, the index at the history length,
    [is_player_turn] at (history length is even) and [puzzle_solved] false.
    Otherwise it fails at the first stored string that does not parse, with
    the parser's InvalidMoveError, or whose move is from an empty square,
    with the AssertionError of [board.push]. Every history is in one of
    these cases. *)
Theorem load_from_state_replays (self : ChessLogic)
    (puzzle_state : state_manager.PuzzleState) (initial_fen : string)
    (solution : list string) (p0 : Position) :
  board_from_fen initial_fen = Some p0 →
  (∀ mvs, mapM from_uci (state_manager.moves_uci puzzle_state) = Some mvs →
     pushable_line p0 mvs = true →
     load_from_state self puzzle_state initial_fen solution
     = Ok {| game_state :=
               Some {| board := foldl push (board_new p0) mvs;
                       moves_uci := state_manager.moves_uci puzzle_state;
                       current_move_index :=
                         length (state_manager.moves_uci puzzle_state);
                       is_player_turn :=
                         even_len (state_manager.moves_uci puzzle_state);
                       puzzle_solved := false |};
             solution_moves := solution;
             state_manager := state_manager self;
             puzzle_id := Some (state_manager.puzzle_id puzzle_state) |})
  ∧ (∀ pre s rest mvs,
       state_manager.moves_uci puzzle_state = pre ++ s :: rest →
       mapM from_uci pre = Some mvs →
       pushable_line p0 mvs = true →
       (from_uci s = None →
        load_from_state self puzzle_state initial_fen solution
        = Raise InvalidMoveError)
       ∧ (∀ m, from_uci s = Some m →
            pushable (foldl apply_move p0 mvs) m = false →
            load_from_state self puzzle_state initial_fen solution
            = Raise AssertionError))
  ∧ ((∃ mvs, mapM from_uci (state_manager.moves_uci puzzle_state) = Some mvs
        ∧ pushable_line p0 mvs = true)
     ∨ (∃ pre s rest mvs,
          state_manager.moves_uci puzzle_state = pre ++ s :: rest
          ∧ mapM from_uci pre = Some mvs
          ∧ pushable_line p0 mvs = true
          ∧ (from_uci s = None
             ∨ ∃ m, from_uci s = Some m
                 ∧ pushable (foldl apply_move p0 mvs) m = false))).
Proof.
  intros Hfen. unfold load_from_state, _replay_moves_on_board.
  rewrite Hfen. split; [|split].
  - intros mvs Hm Hl.
    rewrite (replay_loop_ok _ mvs (board_new p0) Hm Hl). reflexivity.
  - intros pre s rest mvs -> Hm Hl.
    destruct (replay_loop_fails pre rest s mvs (board_new p0) Hm Hl)
      as [Hparse Hpush].
    split.
    + intros Hs. rewrite (Hparse Hs). reflexivity.
    + intros m Hs Hp. rewrite (Hpush m Hs Hp). reflexivity.
  - apply replay_cases.
Qed.

End Resume.

(** C4 on the opening book: a stored history of two legal plies. *)
Lemma load_from_state_replays_witness :
  ∃ b, chess_logic.load_from_state Book.engine
         (state_manager.mkPuzzleState "p1" ["e2e4"; "e7e5"] None)
         Book.initial_fen ["e2e4"; "e7e5"; "g1f3"]
       = Ok {| chess_logic.game_state :=
                 Some {| chess_logic.board := b;
                         chess_logic.moves_uci := ["e2e4"; "e7e5"];
                         chess_logic.current_move_index := 2;
                         chess_logic.is_player_turn := true;
                         chess_logic.puzzle_solved := false |};
               chess_logic.solution_moves := ["e2e4"; "e7e5"; "g1f3"];
               chess_logic.state_manager := Some state_manager.new;
               chess_logic.puzzle_id := Some "p1" |}.
Proof.
  eexists.
  apply (proj1 (load_from_state_replays Book.engine
                  (state_manager.mkPuzzleState "p1" ["e2e4"; "e7e5"] None)
                  Book.initial_fen ["e2e4"; "e7e5"; "g1f3"]
                  (Book.initial_fen, []) eq_refl)
           ["e2e4"; "e7e5"]).
  - reflexivity.
  - reflexivity.
Defined.

(** C4 as stated fails on the code. "e2e5" is well-formed coordinate
    notation and no legal move in the initial position, where e2 holds a
    pawn; a stored history holding it is replayed all the same, and
    [load_from_state] succeeds. "e3e4" is well-formed and from an empty
    square: a stored history holding it makes [load_from_state] fail with
    the AssertionError of [board.push], which is no CorruptHistory error
    either. *)
Lemma load_from_state_accepts_illegal_history :
  from_uci "e2e5" = Some "e2e5"
  ∧ is_legal (Book.initial_fen, []) "e2e5" = false
  ∧ (∃ self, chess_logic.load_from_state Book.engine
               (state_manager.mkPuzzleState "p1" ["e2e5"] None)
               Book.initial_fen ["e2e4"; "e7e5"]
             = Ok self
       ∧ Book.history self = ["e2e5"]
       ∧ Book.cursor self = 1)
  ∧ from_uci "e3e4" = Some "e3e4"
  ∧ chess_logic.load_from_state Book.engine
      (state_manager.mkPuzzleState "p1" ["e3e4"] None)
      Book.initial_fen ["e2e4"; "e7e5"]
    = Raise AssertionError.
Proof.
  split; [reflexivity|]. split; [reflexivity|]. split.
  - eexists. repeat split.
  - split; reflexivity.
Qed.

(** ** The solution index *)

Section Cursor.
Import chess_logic.
Context {R : ChessRules}.

Lemma even_len_true {A} (l : list A) :
  even_len l = true → (length l + 1) / 2 = length l / 2
                      ∧ (length l + 1 + 1) / 2 = S (length l / 2).
Proof.
  unfold even_len. intros H. apply Nat.eqb_eq in H.
  pose proof (Nat.div_mod_eq (length l) 2) as Hl.
  rewrite H, Nat.add_0_r in Hl. rewrite Hl at 1 3.
  split.
  - rewrite Nat.mul_comm, Nat.div_add_l by lia. simpl. lia.
  - replace (2 * (length l / 2) + 1 + 1) with ((S (length l / 2)) * 2) by lia.
    apply Nat.div_mul. lia.
Qed.

Lemma even_len_false {A} (l : list A) :
  even_len l = false → (length l + 1 + 1) / 2 = (length l + 1) / 2.
Proof.
  unfold even_len. intros H. apply Nat.eqb_neq in H.
  pose proof (Nat.div_mod_eq (length l) 2) as Hl.
  pose proof (Nat.mod_upper_bound (length l) 2 ltac:(lia)) as Hlt.
  assert (Hm : length l mod 2 = 1) by lia. rewrite Hm in Hl.
  rewrite Hl at 1 2.
  replace (2 * (length l / 2) + 1 + 1 + 1) with (1 + (S (length l / 2)) * 2)
    by lia.
  replace (2 * (length l / 2) + 1 + 1) with (0 + (S (length l / 2)) * 2)
    by lia.
  rewrite !Nat.div_add by lia. reflexivity.
Qed.

Lemma play_move_counted (self : ChessLogic) gs (move_str : string) :
  game_state self = Some gs → counted gs →
  ∃ gs', game_state (play_move self move_str).1 = Some gs' ∧ counted gs'.
Proof.
  intros Hgs [Hturn Hidx].
  destruct (play_move_cases self move_str)
    as [[Hn _]|[(gs1 & _ & _ & H)|[(gs1 & mv & _ & _ & _ & H)
       |(gs1 & mv & Hgs1 & _ & _ & H)]]]; rewrite ?H; simpl.
  - congruence.
  - exists gs. split; [assumption|split; assumption].
  - exists gs. split; [assumption|split; assumption].
  - assert (gs1 = gs) as -> by congruence.
    destruct (apply_ply_state self gs mv)
      as (gs' & Hgs' & _ & Hm & Hi & Ht & _).
    exists gs'. split; [exact Hgs'|]. split.
    + rewrite Ht, Hm, even_len_snoc, Hturn. reflexivity.
    + rewrite Hi, Hm, length_app, Hidx. cbn [length].
      rewrite Hturn. destruct (even_len (moves_uci gs)) eqn:He.
      * destruct (even_len_true _ He) as [-> ->]. reflexivity.
      * rewrite (even_len_false _ He). reflexivity.
Qed.

(** From [initialize_puzzle], after any [play_move] calls, the index is
    half the history length, rounded up. *)
Lemma cursor_counts_player_plies (self0 self : ChessLogic)
    (pid fen : string) (solution moves : list string) :
  initialize_puzzle self0 pid fen solution = Ok self →
  ∃ gs, game_state (play_moves self moves).1 = Some gs
    ∧ current_move_index gs = (length (moves_uci gs) + 1) / 2.
Proof.
  intros Hinit.
  destruct (initialize_puzzle_consistent _ _ _ _ _ Hinit)
    as (gs & Hgs & [Hturn _] & Hm & Hi & _).
  assert (Hc : counted gs).
  { split; [exact Hturn|]. rewrite Hi, Hm. reflexivity. }
  clear Hinit Hturn Hm Hi. revert self gs Hgs Hc.
  induction moves as [|m moves IH]; intros self gs Hgs Hc.
  - exists gs. split; [exact Hgs|apply Hc].
  - cbn [play_moves].
    destruct (play_move_counted self gs m Hgs Hc) as (gs1 & Hgs1 & Hc1).
    destruct (play_move self m) as [self1 [r msg]]. simpl in Hgs1.
    destruct (IH self1 gs1 Hgs1 Hc1) as (gs2 & Hgs2 & Hi2).
    destruct (play_moves self1 moves) as [self2 rs]. simpl in *. eauto.
Qed.

End Cursor.

(** C1, at its failing input: Scenario C on the position after 1. e4 g6.
    [play_move_tree(["d1h5"])] plays "d1h5" and the automatic reply "g6h5"
    and returns two messages, but the index only advanced on the player's
    ply: it is 1 with two plies in the history and a two-ply solution, so the
    solution is not consumed and the outcome is SUCCESS, not
    PUZZLE_SOLVED. *)
Theorem scenario_C_index_lags_history :
  ∃ self,
    chess_logic.play_move_tree Book.scenario_C ["d1h5"]
    = Ok (self, (chess_logic.SUCCESS, ["Qh5"; "Opponent: gxh5"]))
    ∧ Book.history self = ["d1h5"; "g6h5"]
    ∧ chess_logic.solution_moves self = ["d1h5"; "g6h5"]
    ∧ Book.cursor self = 1.
Proof. eexists. repeat split. Qed.

(** C5, at its failing input. A session resumed on the history e2e4 e7e5
    g1f3 with the solution e2e4 e7e5 g1f3 b8c6 has its index at 3.
    [rollback_moves(2)] removes e7e5 and g1f3 and leaves the index at 1;
    re-applying them, "e7e5" is played as the opponent's ply without moving
    the index, and "g1f3" is then checked against [solution[1]], which is
    "e7e5": WRONG_MOVE. The history stays one ply short of the original. *)
Theorem rollback_then_replay_wrong_move :
  Book.history
    (Book.loaded ["e2e4"; "e7e5"; "g1f3"] ["e2e4"; "e7e5"; "g1f3"; "b8c6"])
  = ["e2e4"; "e7e5"; "g1f3"]
  ∧ chess_logic.rollback_moves
      (Book.loaded ["e2e4"; "e7e5"; "g1f3"]
         ["e2e4"; "e7e5"; "g1f3"; "b8c6"]) 2
    = Ok (Book.rolled_back
            (Book.loaded ["e2e4"; "e7e5"; "g1f3"]
               ["e2e4"; "e7e5"; "g1f3"; "b8c6"]) 2, true)
  ∧ Book.history
      (Book.rolled_back
         (Book.loaded ["e2e4"; "e7e5"; "g1f3"]
            ["e2e4"; "e7e5"; "g1f3"; "b8c6"]) 2) = ["e2e4"]
  ∧ Book.cursor
      (Book.rolled_back
         (Book.loaded ["e2e4"; "e7e5"; "g1f3"]
            ["e2e4"; "e7e5"; "g1f3"; "b8c6"]) 2) = 1
  ∧ (chess_logic.play_moves
       (Book.rolled_back
          (Book.loaded ["e2e4"; "e7e5"; "g1f3"]
             ["e2e4"; "e7e5"; "g1f3"; "b8c6"]) 2) ["e7e5"; "g1f3"]).2
    = [chess_logic.SUCCESS; chess_logic.WRONG_MOVE]
  ∧ Book.history
      (Book.played
         (Book.rolled_back
            (Book.loaded ["e2e4"; "e7e5"; "g1f3"]
               ["e2e4"; "e7e5"; "g1f3"; "b8c6"]) 2) ["e7e5"; "g1f3"])
    = ["e2e4"; "e7e5"].
Proof. repeat split. Qed.

(** * Further properties *)

(** ** The state store: search, eviction, copies *)

Section StoreSearch.
Import state_manager.

Lemma elem_of_set_elements (m : gmap (string * list string) PuzzleState)
    (s : PuzzleState) :
  s ∈ set_elements m ↔ ∃ k, m !! k = Some s.
Proof.
  unfold set_elements. rewrite list_elem_of_fmap. split.
  - intros [[k x] [-> Hin]]. exists k. apply elem_of_map_to_list. exact Hin.
  - intros [k Hk]. exists (k, s). split; [reflexivity|].
    apply elem_of_map_to_list. exact Hk.
Qed.

Lemma length_set_elements (m : gmap (string * list string) PuzzleState) :
  length (set_elements m) = size m.
Proof. unfold set_elements. rewrite length_fmap. apply length_map_to_list. Qed.

(** What the chain of [continue]s of [search_states] lets through. *)
Lemma passes_spec (c : SearchCriteria.t) (s : PuzzleState) :
  passes c s = true ↔
    (∀ p, SearchCriteria.puzzle_id c = Some p → puzzle_id s = p)
    ∧ (∀ m, SearchCriteria.moves_uci c = Some m → moves_uci s = m)
    ∧ (∀ n, SearchCriteria.move_count c = Some n →
         Z.of_nat (length (moves_uci s)) = n)
    ∧ (∀ n, SearchCriteria.move_count_min c = Some n →
         (n ≤ Z.of_nat (length (moves_uci s)))%Z)
    ∧ (∀ n, SearchCriteria.move_count_max c = Some n →
         (Z.of_nat (length (moves_uci s)) ≤ n)%Z)
    ∧ (∀ i, SearchCriteria.message_id c = Some i → message_id s = Some i).
Proof.
  unfold passes. destruct c as [cp cm cn cmin cmax ci]. simpl.
  rewrite !andb_true_iff, !negb_true_iff.
  split.
  - intros [[[[[H1 H2] H3] H4] H5] H6]. repeat split.
    + intros p ->. apply negb_false_iff, bool_decide_eq_true in H1. exact H1.
    + intros m ->. apply negb_false_iff, bool_decide_eq_true in H2. exact H2.
    + intros n ->. apply negb_false_iff, Z.eqb_eq in H3. exact H3.
    + intros n ->. apply Z.ltb_ge in H4. exact H4.
    + intros n ->. rewrite Z.gtb_ltb in H5. apply Z.ltb_ge in H5. exact H5.
    + intros i ->. apply negb_false_iff, bool_decide_eq_true in H6. exact H6.
  - intros (H1 & H2 & H3 & H4 & H5 & H6). repeat split.
    + destruct cp as [p|]; [|reflexivity].
      apply negb_false_iff, bool_decide_eq_true. auto.
    + destruct cm as [m|]; [|reflexivity].
      apply negb_false_iff, bool_decide_eq_true. auto.
    + destruct cn as [n|]; [|reflexivity].
      apply negb_false_iff, Z.eqb_eq. auto.
    + destruct cmin as [n|]; [|reflexivity]. apply Z.ltb_ge. auto.
    + destruct cmax as [n|]; [|reflexivity].
      rewrite Z.gtb_ltb. apply Z.ltb_ge. auto.
    + destruct ci as [i|]; [|reflexivity].
      apply negb_false_iff, bool_decide_eq_true. auto.
Qed.

Lemma elem_of_search_states (sm : StateManager) (c : SearchCriteria.t)
    (s : PuzzleState) :
  s ∈ search_states sm c
  ↔ (∃ k, states sm !! k = Some s) ∧ passes c s = true.
Proof.
  unfold search_states. rewrite list_elem_of_filter, elem_of_set_elements.
  tauto.
Qed.

(** X1. [search_states] returns exactly the stored states that meet every
    criterion that is not [None]: puzzle id, move tuple, exact, minimum and
    maximum move count, message id. *)
Theorem search_states_conjunction (sm : StateManager)
    (c : SearchCriteria.t) (s : PuzzleState) :
  s ∈ search_states sm c ↔
    (∃ k, states sm !! k = Some s)
    ∧ (∀ p, SearchCriteria.puzzle_id c = Some p → puzzle_id s = p)
    ∧ (∀ m, SearchCriteria.moves_uci c = Some m → moves_uci s = m)
    ∧ (∀ n, SearchCriteria.move_count c = Some n →
         Z.of_nat (length (moves_uci s)) = n)
    ∧ (∀ n, SearchCriteria.move_count_min c = Some n →
         (n ≤ Z.of_nat (length (moves_uci s)))%Z)
    ∧ (∀ n, SearchCriteria.move_count_max c = Some n →
         (Z.of_nat (length (moves_uci s)) ≤ n)%Z)
    ∧ (∀ i, SearchCriteria.message_id c = Some i → message_id s = Some i).
Proof.
  unfold search_states. rewrite list_elem_of_filter, elem_of_set_elements.
  rewrite passes_spec. tauto.
Qed.

(** Stores built by the methods of [StateManager] file every object under
    its own identity. *)
Lemma keyed_new : keyed new.
Proof. intros k s H. simpl in H. rewrite lookup_empty in H. discriminate. Qed.

Lemma keyed_create_state (sm : StateManager) p m mid :
  keyed sm → keyed (create_state sm p m mid).1.
Proof.
  intros Hk k s. destruct (stored sm p m) as [s'|] eqn:E.
  - rewrite (create_state_present _ _ _ _ _ E). apply Hk.
  - rewrite (create_state_absent _ _ _ _ E).
    destruct (decide ((p, m) = k)) as [<-|Hne].
    + rewrite lookup_insert_eq. intros [= <-]. reflexivity.
    + rewrite lookup_insert_ne by exact Hne. apply Hk.
Qed.

Lemma keyed_clear (sm : StateManager) pid :
  keyed sm → keyed (clear_puzzle_states sm pid).1.
Proof.
  intros Hk k s. simpl. rewrite map_lookup_filter_Some. intros [H _].
  exact (Hk k s H).
Qed.

Lemma keyed_built (cs : list StoreCall) : keyed (built cs).
Proof.
  unfold built. induction cs as [|c cs IH] using rev_ind.
  - apply keyed_new.
  - rewrite foldl_app. simpl. destruct c; simpl.
    + apply keyed_create_state, IH.
    + apply keyed_create_state, IH.
    + exact IH.
    + apply keyed_clear, IH.
Qed.

Lemma NoDup_set_elements (sm : StateManager) :
  keyed sm → NoDup (set_elements (states sm)).
Proof.
  intros Hk. unfold set_elements.
  apply NoDup_fmap_2_strong; [|apply NoDup_map_to_list].
  intros [k1 s1] [k2 s2] H1 H2. simpl. intros <-.
  apply elem_of_map_to_list in H1, H2.
  rewrite <- (Hk _ _ H1), <- (Hk _ _ H2). reflexivity.
Qed.

Lemma filter_all {A} (P : A → Prop) `{!∀ x, Decision (P x)} (l : list A) :
  (∀ x, x ∈ l → P x) → filter P l = l.
Proof.
  induction l as [|x l IH]; intros Hall; [reflexivity|].
  rewrite filter_cons_True by (apply Hall; left).
  f_equal. apply IH. intros y Hy. apply Hall. right. exact Hy.
Qed.

(** X2. On every store the methods can build, a search returns each state
    at most once and never more states than the store counts, and a search
    with no criterion at all returns the whole store. *)
Theorem search_states_distinct (cs : list StoreCall)
    (c : SearchCriteria.t) :
  NoDup (search_states (built cs) c)
  ∧ length (search_states (built cs) c) ≤ get_state_count (built cs)
  ∧ length (search_states (built cs) SearchCriteria.any)
    = get_state_count (built cs).
Proof.
  pose proof (NoDup_set_elements _ (keyed_built cs)) as Hnd.
  unfold search_states, get_state_count. split; [|split].
  - apply NoDup_filter. exact Hnd.
  - rewrite <- length_set_elements. apply length_filter.
  - rewrite filter_all by (intros; reflexivity). apply length_set_elements.
Qed.

Lemma NoDup_singleton_elems {A} (l : list A) (x : A) :
  NoDup l → (∀ y, y ∈ l ↔ y = x) → l = [x].
Proof.
  intros Hnd H. destruct l as [|a l].
  - assert (x ∈ @nil A) as Hx by (apply H; reflexivity).
    apply elem_of_nil in Hx. destruct Hx.
  - assert (a = x) as -> by (apply H; left).
    f_equal. apply elem_of_nil_inv. intros y Hy.
    apply NoDup_cons in Hnd as [Hnot _].
    assert (y = x) as -> by (apply H; right; exact Hy).
    exact (Hnot Hy).
Qed.

(** X3. A search by puzzle id and move tuple returns the one state stored
    for that identity, or nothing: the first result the dispatch layer
    takes is the only one, and it is there exactly when [state_exists]
    says so. *)
Theorem search_by_identity (cs : list StoreCall) (p : string)
    (m : list string) :
  search_states (built cs)
    (SearchCriteria.mk (Some p) (Some m) None None None None)
  = match stored (built cs) p m with
    | Some s => [s]
    | None => []
    end
  ∧ (state_exists (built cs) p m = true
     ↔ search_states (built cs)
         (SearchCriteria.mk (Some p) (Some m) None None None None) ≠ []).
Proof.
  pose proof (keyed_built cs) as Hk.
  assert (Hel : ∀ s, s ∈ search_states (built cs)
                     (SearchCriteria.mk (Some p) (Some m) None None None None)
                 ↔ stored (built cs) p m = Some s).
  { intros s. rewrite elem_of_search_states, passes_spec. simpl.
    unfold stored. split.
    - intros ([k Hks] & Hp & Hm & _).
      pose proof (Hk _ _ Hks) as Hid. unfold identity in Hid.
      rewrite (Hp p eq_refl), (Hm m eq_refl) in Hid. rewrite Hid. exact Hks.
    - intros Hs. pose proof (Hk _ _ Hs) as Hid. injection Hid as Hp Hm.
      split; [eauto|]. repeat split; try discriminate.
      + intros ? [= <-]. exact Hp.
      + intros ? [= <-]. exact Hm. }
  assert (Hsearch : search_states (built cs)
                      (SearchCriteria.mk (Some p) (Some m) None None None None)
                    = match stored (built cs) p m with
                      | Some s => [s]
                      | None => []
                      end).
  { destruct (stored (built cs) p m) as [s|] eqn:E.
    - apply NoDup_singleton_elems.
      + apply NoDup_filter, NoDup_set_elements, Hk.
      + intros y. rewrite Hel. split; [intros [= ->]|intros ->]; reflexivity.
    - apply elem_of_nil_inv. intros y Hy. apply Hel in Hy. discriminate. }
  split; [exact Hsearch|].
  rewrite Hsearch. unfold state_exists, set_contains, identity, stored.
  simpl. rewrite bool_decide_eq_true.
  destruct (states (built cs) !! (p, m)) as [s|].
  - split; [discriminate|eauto].
  - split; [intros [? ?]; discriminate|congruence].
Qed.

End StoreSearch.

Section StoreEviction.
Import state_manager.

Lemma length_filter_fmap {A B} (f : A → B) (Q : B → Prop)
    `{!∀ y, Decision (Q y)} (l : list A) :
  length (filter Q (f <$> l)) = length (filter (λ x, Q (f x)) l).
Proof.
  induction l as [|x l IH]; [reflexivity|].
  rewrite fmap_cons. destruct (decide (Q (f x))) as [Hq|Hq].
  - rewrite !filter_cons_True by exact Hq. simpl. rewrite IH. reflexivity.
  - rewrite !filter_cons_False by exact Hq. exact IH.
Qed.

(** Filtering the elements of the set and filtering the set count the
    same. *)
Lemma length_filter_elements (m : gmap (string * list string) PuzzleState)
    (Q : PuzzleState → Prop) `{!∀ s, Decision (Q s)} :
  length (filter Q (set_elements m))
  = size (filter (λ kv : (string * list string) * PuzzleState, Q kv.2) m).
Proof.
  unfold set_elements. rewrite length_filter_fmap.
  rewrite <- length_map_to_list. apply Permutation_length.
  apply NoDup_Permutation.
  - apply NoDup_filter, NoDup_map_to_list.
  - apply NoDup_map_to_list.
  - intros [k s]. rewrite list_elem_of_filter, !elem_of_map_to_list.
    rewrite map_lookup_filter_Some. simpl. tauto.
Qed.

Lemma size_filter_complement (m : gmap (string * list string) PuzzleState)
    (P : (string * list string) * PuzzleState → Prop)
    `{!∀ kv, Decision (P kv)} :
  size m = size (filter P m) + size (filter (λ kv, ¬ P kv) m).
Proof.
  rewrite <- map_size_disj_union by apply map_disjoint_filter_complement.
  rewrite map_filter_union_complement. reflexivity.
Qed.

(** X4. [clear_puzzle_states] on any store the methods can build: the
    number it returns is the number of states the puzzle had, and the count
    drops by it; afterwards the puzzle has no state left, the states of
    every other puzzle are as they were, and the current pointer is cleared
    when it named a state of the puzzle and kept otherwise. *)
Theorem clear_puzzle_states_spec (cs : list StoreCall) (pid : string) :
  (clear_puzzle_states (built cs) pid).2
  = length (get_states_for_puzzle (built cs) pid)
  ∧ get_state_count (clear_puzzle_states (built cs) pid).1
    + (clear_puzzle_states (built cs) pid).2
    = get_state_count (built cs)
  ∧ get_states_for_puzzle (clear_puzzle_states (built cs) pid).1 pid = []
  ∧ (∀ m, state_exists (clear_puzzle_states (built cs) pid).1 pid m = false)
  ∧ (∀ p m, p ≠ pid →
       stored (clear_puzzle_states (built cs) pid).1 p m
       = stored (built cs) p m)
  ∧ (∀ s, get_current_state (built cs) = Some s →
       get_current_state (clear_puzzle_states (built cs) pid).1
       = if bool_decide (puzzle_id s = pid) then None else Some s)
  ∧ (get_current_state (built cs) = None →
     get_current_state (clear_puzzle_states (built cs) pid).1 = None).
Proof.
  pose proof (keyed_built cs) as Hk.
  set (sm := built cs) in *.
  set (P := λ kv : (string * list string) * PuzzleState,
              puzzle_id kv.2 ≠ pid).
  assert (Hlen : length (get_states_for_puzzle sm pid)
                 = size (filter (λ kv, ¬ P kv) (states sm))).
  { unfold get_states_for_puzzle, search_states.
    rewrite length_filter_elements. f_equal.
    apply map_filter_ext. intros k s _. simpl. rewrite passes_spec. simpl.
    unfold P. simpl. split.
    - intros (Hp & _) Hne. apply Hne. apply Hp. reflexivity.
    - intros Hnn. destruct (decide (puzzle_id s = pid)) as [Heq|Hne];
        [|contradiction].
      repeat split; try discriminate. intros ? [= <-]. exact Heq. }
  pose proof (size_filter_complement (states sm) P) as Hsz.
  split; [|split; [|split; [|split; [|split; [|split]]]]].
  - simpl. fold P. rewrite Hlen. lia.
  - unfold get_state_count. simpl. fold P. lia.
  - apply elem_of_nil_inv. intros s Hs.
    unfold get_states_for_puzzle in Hs.
    apply elem_of_search_states in Hs as [[k Hks] Hp].
    apply passes_spec in Hp as [Hp _]. simpl in Hks, Hp.
    apply map_lookup_filter_Some in Hks as [_ Hne].
    apply Hne. apply Hp. reflexivity.
  - intros m. unfold state_exists, set_contains. simpl.
    apply bool_decide_eq_false_2. intros [s Hs].
    apply map_lookup_filter_Some in Hs as [Hs Hne]. simpl in Hne.
    pose proof (Hk _ _ Hs) as Hid. injection Hid as Hp _. contradiction.
  - intros p m Hne. unfold stored. simpl.
    destruct (states sm !! (p, m)) as [s|] eqn:E.
    + apply map_lookup_filter_Some. split; [exact E|]. simpl.
      pose proof (Hk _ _ E) as Hid. injection Hid as Hp _. congruence.
    + apply map_lookup_filter_None. left. exact E.
  - intros s Hs. unfold get_current_state in *. simpl. rewrite Hs.
    reflexivity.
  - intros Hs. unfold get_current_state in *. simpl. rewrite Hs.
    reflexivity.
Qed.

(** X5. Evicting a puzzle twice: the second [clear_puzzle_states] removes
    nothing, returns 0 and leaves the store as the first left it. *)
Theorem clear_puzzle_states_idempotent (sm : StateManager) (pid : string) :
  clear_puzzle_states (clear_puzzle_states sm pid).1 pid
  = ((clear_puzzle_states sm pid).1, 0).
Proof.
  unfold clear_puzzle_states. cbn [fst snd states current_state].
  assert (Hid : filter (λ kv : (string * list string) * PuzzleState,
                          puzzle_id kv.2 ≠ pid)
                  (filter (λ kv : (string * list string) * PuzzleState,
                             puzzle_id kv.2 ≠ pid) (states sm))
                = filter (λ kv : (string * list string) * PuzzleState,
                            puzzle_id kv.2 ≠ pid) (states sm)).
  { apply map_filter_id. intros k s Hs.
    apply map_lookup_filter_Some in Hs as [_ Hne]. exact Hne. }
  rewrite Hid, Nat.sub_diag. f_equal. f_equal.
  destruct (current_state sm) as [s|]; [|reflexivity].
  case_bool_decide as Hs; [reflexivity|].
  rewrite bool_decide_eq_false_2 by exact Hs. reflexivity.
Qed.

(** X6. The overrides of [copy_state]: an empty puzzle id or an empty move
    list counts as no override, so a copy never has an empty puzzle id or an
    empty history unless the source has; a copy without overrides returns
    the source as it is and, on a store that holds the source's identity,
    changes nothing; a message id override is taken whatever its value. *)
Theorem copy_state_overrides (sm : StateManager) (source : PuzzleState)
    (new_pid : option string) (new_moves : option (list string))
    (new_mid : option Z) :
  (puzzle_id source ≠ "" →
   puzzle_id (copy_state sm source new_pid new_moves new_mid).2 ≠ "")
  ∧ (moves_uci source ≠ [] →
     moves_uci (copy_state sm source new_pid new_moves new_mid).2 ≠ [])
  ∧ (∀ i, new_mid = Some i →
       message_id (copy_state sm source new_pid new_moves new_mid).2
       = Some i)
  ∧ copy_state sm source (Some "") (Some []) None
    = copy_state sm source None None None
  ∧ (copy_state sm source None None None).2 = source
  ∧ (is_Some (stored sm (puzzle_id source) (moves_uci source)) →
     states (copy_state sm source None None None).1 = states sm).
Proof.
  split; [|split; [|split; [|split; [|split]]]].
  - intros Hne. unfold copy_state. simpl.
    destruct new_pid as [p|]; [|exact Hne].
    case_bool_decide; assumption.
  - intros Hne. unfold copy_state. simpl.
    destruct new_moves as [[|x l]|]; try exact Hne. discriminate.
  - intros i ->. reflexivity.
  - reflexivity.
  - destruct source. reflexivity.
  - intros [s Hs]. unfold copy_state.
    apply (create_state_present _ _ _ _ _ Hs).
Qed.

Lemma create_state_other (sm : StateManager) p m mid p' m' :
  (p, m) ≠ (p', m') →
  stored (create_state sm p m mid).1 p' m' = stored sm p' m'.
Proof.
  intros Hne. unfold stored. destruct (stored sm p m) as [s|] eqn:E.
  - rewrite (create_state_present _ _ _ _ _ E). reflexivity.
  - rewrite (create_state_absent _ _ _ _ E).
    apply lookup_insert_ne. exact Hne.
Qed.

(** X7. [create_state] and [state_exists]: after the call the identity
    exists; the count grows by one when it did not exist before and stays
    when it did; no other identity appears or disappears. *)
Theorem create_state_exists (sm : StateManager) (p : string)
    (m : list string) (mid : option Z) :
  state_exists (create_state sm p m mid).1 p m = true
  ∧ get_state_count (create_state sm p m mid).1
    = (if state_exists sm p m then get_state_count sm
       else S (get_state_count sm))
  ∧ (∀ p' m', (p, m) ≠ (p', m') →
       state_exists (create_state sm p m mid).1 p' m'
       = state_exists sm p' m').
Proof.
  split; [|split].
  - apply bool_decide_eq_true_2. apply create_state_stored.
  - apply create_state_count.
  - intros p' m' Hne. unfold state_exists, set_contains, identity. simpl.
    pose proof (create_state_other sm p m mid p' m' Hne) as H.
    unfold stored in H. simpl in H. rewrite H. reflexivity.
Qed.

Lemma create_state_same (sm : StateManager) p m mid :
  stored (create_state sm p m mid).1 p m
  = match stored sm p m with
    | Some s => Some s
    | None => Some (mkPuzzleState p m mid)
    end.
Proof.
  unfold stored. destruct (states sm !! (p, m)) as [s|] eqn:E.
  - rewrite (create_state_present _ _ _ _ _ E). exact E.
  - rewrite (create_state_absent _ _ _ _ E). apply lookup_insert_eq.
Qed.

(** X8. First writer wins, over any sequence of [create_state] calls: the
    object stored for an identity afterwards is the one stored before, if
    there was one, and otherwise the object of the first call of the
    sequence with that identity, message id included; later calls with the
    same identity do not replace it. *)
Theorem first_writer_wins (calls : list (string * list string * option Z))
    (sm : StateManager) (p : string) (m : list string) :
  stored (create_all sm calls) p m
  = match stored sm p m with
    | Some s => Some s
    | None => first_created p m calls
    end.
Proof.
  revert sm. induction calls as [|[[p' m'] mid] calls IH]; intros sm.
  - unfold create_all, first_created. cbn [foldl find].
    destruct (stored sm p m); reflexivity.
  - change (create_all sm ((p', m', mid) :: calls))
      with (create_all (create_state sm p' m' mid).1 calls).
    rewrite IH. unfold first_created. cbn [find fst snd].
    destruct (decide ((p', m') = (p, m))) as [Heq|Hne].
    + injection Heq as -> ->. rewrite create_state_same.
      rewrite bool_decide_eq_true_2 by reflexivity.
      destruct (stored sm p m); reflexivity.
    + rewrite (create_state_other _ _ _ _ _ _ Hne).
      rewrite bool_decide_eq_false_2 by exact Hne. reflexivity.
Qed.

End StoreEviction.

(** ** rollback_moves *)

Section Rollback.
Import chess_logic.
Context {R : ChessRules}.

Lemma pops_stack (n : nat) (b : Board) :
  move_stack (pops n b) = drop n (move_stack b).
Proof.
  revert b. induction n as [|n IH]; intros b; [reflexivity|].
  cbn [pops]. destruct (move_stack b) as [|[m p] st] eqn:E.
  - rewrite E. reflexivity.
  - rewrite IH. reflexivity.
Qed.

Lemma pops_add (a b : nat) (bd : Board) :
  pops b (pops a bd) = pops (a + b) bd.
Proof.
  revert bd. induction a as [|a IH]; intros bd; [reflexivity|].
  cbn [pops Nat.add]. destruct (move_stack bd) as [|[m p] st] eqn:E.
  - destruct b as [|b]; [reflexivity|]. cbn [pops]. rewrite E. reflexivity.
  - apply IH.
Qed.

(** [pop] undoes [push]. *)
Lemma pops_push (b : Board) (m : Move) : pops 1 (push b m) = b.
Proof. destruct b. reflexivity. Qed.

(** The loop of [rollback_moves], exactly. *)
Lemma rollback_loop_exact (n : nat) (b : Board) (moves : list string)
    (k : nat) :
  length (move_stack b) = length moves →
  rollback_loop n b moves k
  = Ok (pops n b, take (length moves - n `min` length moves) moves,
        k + n `min` length moves).
Proof.
  revert b moves k. induction n as [|n IH]; intros b moves k Hlen.
  - cbn [rollback_loop pops]. rewrite Nat.min_0_l, Nat.sub_0_r, Nat.add_0_r.
    rewrite firstn_all. reflexivity.
  - cbn [rollback_loop pops]. destruct b as [p st]. cbn [move_stack] in *.
    destruct st as [|[m p'] st].
    + destruct moves; [|discriminate]. cbn [length].
      rewrite Nat.min_0_r, Nat.add_0_r. reflexivity.
    + destruct moves as [|x moves]; [discriminate|].
      assert (Hrl : length (removelast (x :: moves)) = length moves).
      { rewrite removelast_firstn_len, length_take. cbn [length]. lia. }
      injection Hlen as Hlen.
      unfold pop, list_pop. cbn [move_stack bind].
      rewrite IH by (cbn [move_stack]; lia).
      rewrite Hrl. cbn [length]. f_equal. f_equal; [f_equal|lia].
      rewrite removelast_firstn_len. cbn [length Init.Nat.pred].
      rewrite take_take. f_equal. lia.
Qed.

(** What [rollback_moves] returns, in closed form. *)
Lemma rollback_moves_exact (self : ChessLogic) (gs : GameState)
    (count : Z) :
  game_state self = Some gs →
  consistent gs →
  rollback_moves self count
  = Ok (if (count <=? 0)%Z then self
        else {| game_state :=
                  Some {| board := pops (Z.to_nat count) (board gs);
                          moves_uci :=
                            take (length (moves_uci gs)
                                  - Z.to_nat count `min` length (moves_uci gs))
                                 (moves_uci gs);
                          current_move_index :=
                            current_move_index gs
                            - Z.to_nat count `min` length (moves_uci gs);
                          is_player_turn :=
                            even_len
                              (take (length (moves_uci gs)
                                     - Z.to_nat count
                                       `min` length (moves_uci gs))
                                    (moves_uci gs));
                          puzzle_solved := false |};
                solution_moves := solution_moves self;
                state_manager := state_manager self;
                puzzle_id := puzzle_id self |},
        bool_decide (0 < Z.to_nat count `min` length (moves_uci gs))).
Proof.
  intros Hgs [_ Hlen]. unfold rollback_moves. rewrite Hgs.
  destruct (count <=? 0)%Z eqn:Hc.
  - apply Z.leb_le in Hc. rewrite Z2Nat.nonpos by exact Hc.
    rewrite Nat.min_0_l. reflexivity.
  - rewrite (rollback_loop_exact _ _ _ 0 Hlen). cbn [bind Nat.add Nat.max].
    f_equal. f_equal.
    destruct (Z.to_nat count `min` length (moves_uci gs)) as [|k];
      reflexivity.
Qed.

(** X9. [rollback_moves] on a session whose board stack is as long as its
    history (every session the engine builds): it never raises; a count of
    zero or less changes nothing and returns False; a positive count pops
    min(count, history length) plies from the board and from the end of the
    history, lowers the index by as many (not below 0), sets the turn from
    the parity of what is left, clears the solved flag and returns True
    exactly when a ply was removed. The solution, the puzzle id and the
    store, its current pointer included, are never touched. *)
Theorem rollback_moves_spec (self : ChessLogic) (gs : GameState)
    (count : Z) :
  game_state self = Some gs →
  consistent gs →
  rollback_moves self count
  = Ok (if (count <=? 0)%Z then self
        else {| game_state :=
                  Some {| board := pops (Z.to_nat count) (board gs);
                          moves_uci :=
                            take (length (moves_uci gs)
                                  - Z.to_nat count `min` length (moves_uci gs))
                                 (moves_uci gs);
                          current_move_index :=
                            current_move_index gs
                            - Z.to_nat count `min` length (moves_uci gs);
                          is_player_turn :=
                            even_len
                              (take (length (moves_uci gs)
                                     - Z.to_nat count
                                       `min` length (moves_uci gs))
                                    (moves_uci gs));
                          puzzle_solved := false |};
                solution_moves := solution_moves self;
                state_manager := state_manager self;
                puzzle_id := puzzle_id self |},
        bool_decide (0 < Z.to_nat count `min` length (moves_uci gs))).
Proof.
  intros Hgs [_ Hlen]. unfold rollback_moves. rewrite Hgs.
  destruct (count <=? 0)%Z eqn:Hc.
  - apply Z.leb_le in Hc. rewrite Z2Nat.nonpos by exact Hc.
    rewrite Nat.min_0_l. reflexivity.
  - rewrite (rollback_loop_exact _ _ _ 0 Hlen). cbn [bind Nat.add Nat.max].
    f_equal. f_equal.
    destruct (Z.to_nat count `min` length (moves_uci gs)) as [|k];
      reflexivity.
Qed.

(** X10. Rollbacks add up: on such a session, [rollback_moves(a)] followed
    by [rollback_moves(b)], both positive, leaves the engine exactly as
    [rollback_moves(a + b)] does. *)
Theorem rollback_moves_compose (self : ChessLogic) (gs : GameState)
    (a b : Z) :
  game_state self = Some gs →
  consistent gs →
  (0 < a)%Z → (0 < b)%Z →
  calls self [CallRollback a; CallRollback b]
  = calls self [CallRollback (a + b)].
Proof.
  intros Hgs Hc Ha Hb.
  pose proof Hc as [_ Hlen].
  cbn [calls call].
  rewrite (rollback_moves_exact self gs a Hgs Hc).
  rewrite (rollback_moves_exact self gs (a + b) Hgs Hc).
  assert (Hfa : (a <=? 0)%Z = false) by (apply Z.leb_gt; lia).
  assert (Hfb : (b <=? 0)%Z = false) by (apply Z.leb_gt; lia).
  assert (Hfab : (a + b <=? 0)%Z = false) by (apply Z.leb_gt; lia).
  rewrite Hfa, Hfab. cbn [bind].
  set (na := Z.to_nat a). set (nb := Z.to_nat b).
  assert (Hab : Z.to_nat (a + b) = na + nb) by (subst na nb; lia).
  rewrite Hab.
  set (len := length (moves_uci gs)) in *.
  set (gs1 := {| board := pops na (board gs);
                 moves_uci := take (len - na `min` len) (moves_uci gs);
                 current_move_index :=
                   current_move_index gs - na `min` len;
                 is_player_turn :=
                   even_len (take (len - na `min` len) (moves_uci gs));
                 puzzle_solved := false |}).
  assert (Hl1 : length (moves_uci gs1) = len - na `min` len).
  { subst gs1. cbn [moves_uci]. rewrite length_take. subst len. lia. }
  assert (Hc1 : consistent gs1).
  { split; [reflexivity|]. rewrite Hl1. subst gs1. cbn [board].
    rewrite pops_stack, length_drop. subst len. lia. }
  set (s1 := {| game_state := Some gs1;
                solution_moves := solution_moves self;
                state_manager := state_manager self;
                puzzle_id := puzzle_id self |}).
  rewrite (rollback_moves_exact s1 gs1 b eq_refl Hc1).
  rewrite Hfb. subst s1. cbn [bind solution_moves state_manager puzzle_id].
  rewrite Hl1. subst gs1.
  cbn [board moves_uci current_move_index].
  rewrite pops_add, take_take. fold nb.
  assert (Hk : (len - na `min` len - nb `min` (len - na `min` len))
                 `min` (len - na `min` len)
               = len - (na + nb) `min` len) by lia.
  assert (Hi : current_move_index gs - na `min` len
               - nb `min` (len - na `min` len)
               = current_move_index gs - (na + nb) `min` len) by lia.
  rewrite Hk, Hi. reflexivity.
Qed.

End Rollback.

(** ** What the engine records, and resuming from it *)

Section Lines.
Import chess_logic.
Context {R : ChessRules}.

Lemma legal_line_snoc (p : Position) (mvs : list Move) (m : Move) :
  legal_line p (mvs ++ [m])
  = legal_line p mvs && is_legal (foldl apply_move p mvs) m.
Proof.
  revert p. induction mvs as [|x mvs IH]; intros p; cbn [app legal_line foldl].
  - rewrite andb_true_r. reflexivity.
  - rewrite IH, andb_assoc. reflexivity.
Qed.

Lemma legal_line_take (p : Position) (mvs : list Move) (k : nat) :
  legal_line p mvs = true → legal_line p (take k mvs) = true.
Proof.
  revert p k. induction mvs as [|x mvs IH]; intros p [|k]; try reflexivity.
  cbn [take legal_line]. rewrite !andb_true_iff. intros [Hx Hr].
  split; [exact Hx|]. apply IH. exact Hr.
Qed.

(** Popping [n] plies from a board built by pushes leaves the board built by
    all but the last [n] pushes. *)
Lemma pops_foldl_push (n : nat) (mvs : list Move) (b0 : Board) :
  move_stack b0 = [] →
  pops n (foldl push b0 mvs) = foldl push b0 (take (length mvs - n) mvs).
Proof.
  intros Hb0. revert mvs. induction n as [|n IH]; intros mvs.
  - rewrite Nat.sub_0_r, firstn_all. reflexivity.
  - destruct mvs as [|m mvs _] using rev_ind.
    + cbn [foldl pops length Nat.sub take]. rewrite Hb0. reflexivity.
    + rewrite foldl_app. cbn [foldl].
      assert (Hpop : pops (S n) (push (foldl push b0 mvs) m)
                     = pops n (foldl push b0 mvs)).
      { cbn [pops push move_stack]. destruct (foldl push b0 mvs).
        reflexivity. }
      rewrite Hpop, IH, length_app. cbn [length].
      replace (length mvs + 1 - S n) with (length mvs - n) by lia.
      rewrite take_app_le by lia. reflexivity.
Qed.

(** Replaying the coordinate strings of a legal line pushes its moves. *)
Lemma replay_loop_legal_line {U : UciRoundTrip R} {P : PushLaws R}
    (mvs : list Move) (b : Board) :
  legal_line (position b) mvs = true →
  replay_loop b (uci <$> mvs) = Ok (foldl push b mvs).
Proof.
  revert b. induction mvs as [|m mvs IH]; intros b; [reflexivity|].
  cbn [legal_line fmap list_fmap replay_loop foldl].
  rewrite andb_true_iff. intros [Hm Hr].
  rewrite (from_uci_uci _ _ Hm). unfold checked_push.
  rewrite (legal_pushable _ _ Hm). cbn [bind]. apply IH. exact Hr.
Qed.

(** The push of [play_move] never trips the assertion: the move it pushes
    is legal. *)
Lemma resolved_move_pushes {L : ChessRulesLaws R} {P : PushLaws R}
    (b : Board) (move_str : string) (m : Move) :
  resolve_move b move_str = Some m → checked_push b m = Ok (push b m).
Proof.
  intros Hres. unfold checked_push.
  rewrite (legal_pushable _ _ (resolve_move_sound _ _ _ Hres)).
  reflexivity.
Qed.

Lemma replayable_apply_ply (self : ChessLogic) (gs : GameState)
    (move : Move) (p0 : Position) :
  replayable p0 gs → is_legal (position (board gs)) move = true →
  ∃ gs', game_state (apply_ply self gs move).1 = Some gs'
    ∧ replayable p0 gs'.
Proof.
  intros (mvs & Hb & Hm & Hl) Hlegal.
  eexists. split; [reflexivity|]. exists (mvs ++ [move]).
  cbn [board moves_uci]. repeat split.
  - rewrite foldl_app, <- Hb. reflexivity.
  - rewrite fmap_app, Hm. reflexivity.
  - rewrite legal_line_snoc, Hl. cbn [andb].
    rewrite Hb, foldl_push_apply_move in Hlegal. exact Hlegal.
Qed.

Lemma replayable_play_move {L : ChessRulesLaws R} (self : ChessLogic)
    (gs : GameState) (move_str : string) (p0 : Position) :
  game_state self = Some gs → replayable p0 gs →
  ∃ gs', game_state (play_move self move_str).1 = Some gs'
    ∧ replayable p0 gs'.
Proof.
  intros Hgs Hr.
  destruct (play_move_cases self move_str)
    as [[Hn _]|[(gs1 & _ & _ & H)|[(gs1 & mv & _ & _ & _ & H)
       |(gs1 & mv & Hgs1 & Hres & _ & H)]]]; rewrite ?H; cbn [fst].
  - congruence.
  - eauto.
  - eauto.
  - assert (gs1 = gs) as -> by congruence.
    apply replayable_apply_ply; [exact Hr|].
    apply (resolve_move_sound _ _ _ Hres).
Qed.

Lemma replayable_rollback (self : ChessLogic) (gs : GameState) (count : Z)
    (p0 : Position) :
  game_state self = Some gs → consistent gs → replayable p0 gs →
  ∃ self' r gs', rollback_moves self count = Ok (self', r)
    ∧ game_state self' = Some gs' ∧ replayable p0 gs'.
Proof.
  intros Hgs Hc Hr. rewrite (rollback_moves_exact self gs count Hgs Hc).
  destruct (count <=? 0)%Z; [eauto 6|].
  eexists _, _, _. split; [reflexivity|]. split; [reflexivity|].
  destruct Hr as (mvs & Hb & Hm & Hl).
  exists (take (length mvs - Z.to_nat count) mvs). cbn [board moves_uci].
  repeat split.
  - rewrite Hb. apply pops_foldl_push. reflexivity.
  - rewrite Hm, length_fmap, fmap_take. f_equal. lia.
  - apply legal_line_take. exact Hl.
Qed.

Lemma calls_replayable {L : ChessRulesLaws R} (cs : list Call)
    (self : ChessLogic) (gs : GameState) (p0 : Position) :
  game_state self = Some gs → consistent gs → replayable p0 gs →
  ∃ self' gs', calls self cs = Ok self'
    ∧ game_state self' = Some gs' ∧ consistent gs' ∧ replayable p0 gs'.
Proof.
  revert self gs. induction cs as [|c cs IH]; intros self gs Hgs Hc Hr.
  - cbn [calls]. exists self, gs. auto.
  - cbn [calls].
    destruct (call_consistent self gs c Hgs Hc)
      as (self1 & gs1 & Hcall & Hgs1 & Hc1).
    rewrite Hcall. cbn [bind]. apply (IH self1 gs1 Hgs1 Hc1).
    destruct c as [move_str|count]; cbn [call] in Hcall.
    + destruct (replayable_play_move self gs move_str p0 Hgs Hr)
        as (gs2 & Hgs2 & Hr2).
      injection Hcall as <-. congruence.
    + destruct (replayable_rollback self gs count p0 Hgs Hc Hr)
        as (self2 & r & gs2 & Hroll & Hgs2 & Hr2).
      rewrite Hroll in Hcall. cbn [bind] in Hcall. injection Hcall as <-.
      congruence.
Qed.

Lemma initialize_puzzle_replayable (self0 self : ChessLogic)
    (pid fen : string) (sol : list string) :
  initialize_puzzle self0 pid fen sol = Ok self →
  ∃ p0 gs, board_from_fen fen = Some p0 ∧ game_state self = Some gs
    ∧ consistent gs ∧ replayable p0 gs
    ∧ puzzle_id self = Some pid ∧ solution_moves self = sol.
Proof.
  unfold initialize_puzzle.
  destruct (board_from_fen fen) as [p0|]; [|discriminate].
  intros [= <-]. exists p0. eexists. split; [reflexivity|].
  split; [reflexivity|]. split; [split; reflexivity|].
  split; [|split; reflexivity]. exists []. repeat split.
Qed.

(** X11. The engine records legal moves only. From [initialize_puzzle],
    after any sequence of [play_move] and [rollback_moves] calls, the board
    is the start position with the moves of the history pushed on it one by
    one, the history holds their coordinate strings in order, and each move
    was legal in the position it was played from. *)
Theorem engine_records_legal_moves {L : ChessRulesLaws R}
    (self0 self : ChessLogic) (pid fen : string) (solution : list string)
    (cs : list Call) :
  initialize_puzzle self0 pid fen solution = Ok self →
  ∃ p0 self' gs mvs,
    board_from_fen fen = Some p0
    ∧ calls self cs = Ok self'
    ∧ game_state self' = Some gs
    ∧ board gs = foldl push (board_new p0) mvs
    ∧ moves_uci gs = uci <$> mvs
    ∧ legal_line p0 mvs = true.
Proof.
  intros Hinit.
  destruct (initialize_puzzle_replayable _ _ _ _ _ Hinit)
    as (p0 & gs & Hfen & Hgs & Hc & Hr & _).
  destruct (calls_replayable cs self gs p0 Hgs Hc Hr)
    as (self' & gs' & Hcalls & Hgs' & _ & mvs & Hb & Hm & Hl).
  exists p0, self', gs', mvs. auto 10.
Qed.

(** X12. A recorded history can always be resumed. With coordinate notation
    round-tripping on legal moves and legal moves passing the assertion of
    [board.push], the history of any session reached from
    [initialize_puzzle] by [play_move] and [rollback_moves] calls loads
    without error: [load_from_state] on a state with that history and the
    same FEN gives the live board, history and turn, with the index at the
    history length and the solved flag cleared, and
    [PuzzleManager.get_board_from_state] gives the live board. *)
Theorem recorded_history_resumes {L : ChessRulesLaws R}
    {U : UciRoundTrip R} {P : PushLaws R}
    (self0 self self' : ChessLogic) (pid fen : string)
    (solution : list string) (cs : list Call) (gs : GameState)
    (other : ChessLogic) (mid : option Z) (solution' : list string)
    (pm : puzzle_manager.PuzzleManager) (puzzle : puzzle_manager.PuzzleData) :
  initialize_puzzle self0 pid fen solution = Ok self →
  calls self cs = Ok self' →
  game_state self' = Some gs →
  puzzle_manager.current_puzzle pm = Some puzzle →
  puzzle_manager.fen puzzle = fen →
  load_from_state other
    (state_manager.mkPuzzleState pid (moves_uci gs) mid) fen solution'
  = Ok {| game_state :=
            Some {| board := board gs;
                    moves_uci := moves_uci gs;
                    current_move_index := length (moves_uci gs);
                    is_player_turn := is_player_turn gs;
                    puzzle_solved := false |};
          solution_moves := solution';
          state_manager := state_manager other;
          puzzle_id := Some pid |}
  ∧ puzzle_manager.get_board_from_state pm
      (state_manager.mkPuzzleState pid (moves_uci gs) mid)
    = Ok (board gs).
Proof.
  intros Hinit Hcalls Hgs' Hpm Hfen.
  destruct (initialize_puzzle_replayable _ _ _ _ _ Hinit)
    as (p0 & gs0 & Hp0 & Hgs0 & Hc0 & Hr0 & _).
  destruct (calls_replayable cs self gs0 p0 Hgs0 Hc0 Hr0)
    as (self1 & gs1 & Hcalls1 & Hgs1 & [Hturn _] & mvs & Hb & Hm & Hl).
  assert (self1 = self') as -> by congruence.
  assert (gs1 = gs) as -> by congruence.
  assert (Hreplay : replay_loop (board_new p0) (moves_uci gs)
                    = Ok (board gs)).
  { rewrite Hm, Hb. apply replay_loop_legal_line. exact Hl. }
  split.
  - unfold load_from_state, _replay_moves_on_board.
    cbn [state_manager.moves_uci state_manager.puzzle_id].
    rewrite Hp0, Hreplay. cbn [bind]. rewrite Hturn. reflexivity.
  - unfold puzzle_manager.get_board_from_state.
    rewrite Hpm, Hfen, Hp0. exact Hreplay.
Qed.

End Lines.

(** The moves of the opening book are from squares that hold a piece. *)
Lemma book_lines_pushable :
  Forall (λ e : Book.Pos * list (string * string),
            Forall (λ m, Book.book_pushable e.1 m = true) e.2.*1)
         Book.lines.
Proof. apply (bool_decide_unpack _). vm_compute. exact I. Qed.

#[global] Instance book_push_laws : PushLaws Book.rules.
Proof.
  intros p m. simpl. unfold Book.book_is_legal, Book.legal_moves.
  rewrite bool_decide_eq_true.
  destruct (find _ Book.lines) as [e|] eqn:E.
  - apply find_some in E as [Hin Hp].
    apply bool_decide_eq_true in Hp. subst p.
    pose proof book_lines_pushable as H. rewrite Forall_forall in H.
    specialize (H e (proj2 (list_elem_of_In _ _) Hin)).
    rewrite Forall_forall in H. apply H.
  - simpl. intros Hin. apply elem_of_nil in Hin. destruct Hin.
Qed.

(** Coordinate notation round-trips on the moves of the opening book. *)
Lemma book_lines_uci :
  Forall (λ e : Book.Pos * list (string * string),
            Forall (λ m, Book.book_from_uci m = Some m) e.2.*1)
         Book.lines.
Proof. apply (bool_decide_unpack _). vm_compute. exact I. Qed.

#[global] Instance book_uci_round_trip : UciRoundTrip Book.rules.
Proof.
  intros p m. simpl. unfold Book.book_is_legal, Book.legal_moves.
  rewrite bool_decide_eq_true.
  destruct (find _ Book.lines) as [e|] eqn:E.
  - apply find_some in E as [Hin _].
    pose proof book_lines_uci as H. rewrite Forall_forall in H.
    specialize (H e (proj2 (list_elem_of_In _ _) Hin)).
    rewrite Forall_forall in H. apply H.
  - simpl. intros Hin. apply elem_of_nil in Hin. destruct Hin.
Qed.

(** ** A ply and its rollback; the engine and its store *)

Section PlyAndStore.
Import chess_logic.
Context {R : ChessRules}.

Lemma list_pop_snoc {A} (l : list A) (x : A) : list_pop (l ++ [x]) = Ok l.
Proof.
  unfold list_pop. destruct (l ++ [x]) as [|y l'] eqn:E.
  - destruct l; discriminate.
  - rewrite <- E, removelast_last. reflexivity.
Qed.

(** X13. One ply and one rollback. After [play_move] has applied a ply
    (SUCCESS or PUZZLE_SOLVED), [rollback_moves(1)] returns True and restores
    the board, the history and the turn. The index comes back only when the
    ply was on the player's turn; after a ply on the opponent's turn it is
    one lower than before (not below 0). The solved flag is cleared even if
    it was set before the ply, and the store keeps what the ply put in it. *)
Theorem play_move_then_rollback (self self' : ChessLogic) (gs : GameState)
    (move_str msg : string) (r : MoveResult) :
  game_state self = Some gs →
  consistent gs →
  play_move self move_str = (self', (r, msg)) →
  r = SUCCESS ∨ r = PUZZLE_SOLVED →
  rollback_moves self' 1
  = Ok ({| game_state :=
             Some {| board := board gs;
                     moves_uci := moves_uci gs;
                     current_move_index :=
                       if is_player_turn gs then current_move_index gs
                       else current_move_index gs - 1;
                     is_player_turn := is_player_turn gs;
                     puzzle_solved := false |};
           solution_moves := solution_moves self;
           state_manager := state_manager self';
           puzzle_id := puzzle_id self |}, true).
Proof.
  intros Hgs [Hturn Hlen] Hp Hr.
  destruct (play_move_accepted _ _ _ _ _ Hp Hr)
    as (gs0 & mv & Hgs0 & _ & _ & Happ).
  assert (gs0 = gs) as -> by congruence.
  assert (self' = (apply_ply self gs mv).1) as ->
    by (rewrite Happ; reflexivity).
  unfold rollback_moves, apply_ply.
  cbn [fst game_state board moves_uci current_move_index solution_moves
       state_manager puzzle_id].
  change (1 <=? 0)%Z with false. change (Z.to_nat 1) with 1. cbv iota.
  cbn [rollback_loop]. unfold pop, push. cbn [move_stack position bind].
  rewrite list_pop_snoc. cbn [bind]. rewrite <- Hturn.
  destruct (board gs) as [p st]. cbn [position move_stack].
  rewrite Nat.max_0_l.
  destruct (is_player_turn gs); [|reflexivity].
  replace (S (current_move_index gs) - 1) with (current_move_index gs)
    by lia.
  reflexivity.
Qed.


(** X14. What an applied ply does to the store. Without a store, without a
    puzzle id or with an empty puzzle id the store field is left as it was.
    Otherwise, after the ply, the state of the puzzle id with the new
    history exists, the current pointer is that state with no message id
    (also when the stored object has one), every state stored before is
    still stored, and the count grows by one exactly when the state did not
    exist before. *)
Theorem play_move_notifies_store (self self' : ChessLogic)
    (move_str msg : string) (r : MoveResult) :
  play_move self move_str = (self', (r, msg)) →
  r = SUCCESS ∨ r = PUZZLE_SOLVED →
  (state_manager self = None ∨ puzzle_id self = None
   ∨ puzzle_id self = Some "" →
   state_manager self' = state_manager self)
  ∧ (∀ st p, state_manager self = Some st → puzzle_id self = Some p →
       p ≠ "" →
       ∃ st' gs', state_manager self' = Some st'
         ∧ game_state self' = Some gs'
         ∧ state_manager.state_exists st' p (moves_uci gs') = true
         ∧ state_manager.get_current_state st'
           = Some (state_manager.mkPuzzleState p (moves_uci gs') None)
         ∧ (∀ p' m' x, state_manager.stored st p' m' = Some x →
              state_manager.stored st' p' m' = Some x)
         ∧ state_manager.get_state_count st'
           = (if state_manager.state_exists st p (moves_uci gs')
              then state_manager.get_state_count st
              else S (state_manager.get_state_count st))).
Proof.
  intros Hp Hr.
  destruct (play_move_accepted _ _ _ _ _ Hp Hr)
    as (gs & mv & Hgs & _ & _ & Happ).
  assert (self' = (apply_ply self gs mv).1) as ->
    by (rewrite Happ; reflexivity).
  unfold apply_ply. cbn [fst state_manager game_state moves_uci]. split.
  - unfold notify_store. intros [->|[->| ->]]; [reflexivity| |].
    + destruct (state_manager self); reflexivity.
    + destruct (state_manager self); [|reflexivity].
      rewrite bool_decide_eq_true_2 by reflexivity. reflexivity.
  - intros st p -> -> Hne. unfold notify_store.
    rewrite bool_decide_eq_false_2 by exact Hne.
    eexists _, _. split; [reflexivity|]. split; [reflexivity|].
    cbn [moves_uci]. split; [|split; [|split]].
    + apply bool_decide_eq_true_2. apply create_state_stored.
    + reflexivity.
    + intros p' m' x. apply create_state_keeps.
    + apply create_state_count.
Qed.




End PlyAndStore.

(** ** play_move_tree: messages and plies *)

Section TreeBounds.
Import chess_logic.
Context {R : ChessRules}.

(** [play_move] leaves the history as it is or appends one string. *)
Lemma play_move_history (self : ChessLogic) (move_str : string)
    (gs : GameState) :
  game_state self = Some gs →
  ∃ gs1 added, game_state (play_move self move_str).1 = Some gs1
    ∧ moves_uci gs1 = moves_uci gs ++ added ∧ length added ≤ 1.
Proof.
  intros Hgs.
  destruct (play_move_cases self move_str)
    as [[Hn _]|[(gs1 & _ & _ & H)|[(gs1 & mv & _ & _ & _ & H)
       |(gs1 & mv & Hgs1 & _ & _ & H)]]]; rewrite ?H; cbn [fst].
  - congruence.
  - exists gs, []. rewrite app_nil_r. auto.
  - exists gs, []. rewrite app_nil_r. auto.
  - assert (gs1 = gs) as -> by congruence.
    eexists _, [uci mv]. split; [reflexivity|]. split; [reflexivity|].
    reflexivity.
Qed.

(** One iteration of the loop: one or two messages, and no more plies than
    messages. *)
Lemma tree_body_bounds (self self' : ChessLogic)
    (results results' : list string) (move_str : string) (fl : flow)
    (r : MoveResult) :
  tree_body self results move_str = Ok (fl, (self', r, results')) →
  ∃ new, results' = results ++ new ∧ 1 ≤ length new ≤ 2
    ∧ (∀ gs, game_state self = Some gs →
         ∃ gs' added, game_state self' = Some gs'
           ∧ moves_uci gs' = moves_uci gs ++ added
           ∧ length added ≤ length new)
    ∧ (game_state self = None →
         fl = Break ∧ self' = self ∧ r = INVALID_MOVE
         ∧ new = ["No puzzle initialized"]).
Proof.
  unfold tree_body.
  pose proof (play_move_history self move_str) as H1.
  pose proof (play_move_uninitialized self move_str) as Hn1.
  destruct (play_move self move_str) as [self1 [res msg]].
  cbn [fst] in H1.
  assert (Hnone : game_state self = None → stops res = false → False).
  { intros Hn Hs. specialize (Hn1 Hn). injection Hn1 as _ -> _.
    discriminate. }
  assert (Hone : ∀ gs, game_state self = Some gs →
            ∃ gs' added, game_state self1 = Some gs'
              ∧ moves_uci gs' = moves_uci gs ++ added
              ∧ length added ≤ length [msg]).
  { intros gs Hgs. destruct (H1 gs Hgs) as (gs1 & added & ? & ? & ?).
    exists gs1, added. auto. }
  destruct (stops res) eqn:Hs.
  { intros [= <- <- <- <-]. exists [msg]. split; [reflexivity|].
    split; [cbn [length]; lia|]. split; [exact Hone|].
    intros Hn. specialize (Hn1 Hn). injection Hn1 as -> -> ->. auto. }
  destruct (bool_decide (res = SUCCESS)).
  2:{ intros [= <- <- <- <-]. exists [msg]. split; [reflexivity|].
      split; [cbn [length]; lia|]. split; [exact Hone|].
      intros Hn. destruct (Hnone Hn eq_refl). }
  destruct (game_state self1) as [gs1|] eqn:Hgs1; [|discriminate].
  destruct (negb (is_player_turn gs1) && _).
  2:{ intros [= <- <- <- <-]. exists [msg]. split; [reflexivity|].
      split; [cbn [length]; lia|]. split; [|].
      - intros gs Hgs. destruct (Hone gs Hgs)
          as (gs' & added & Hgs' & ? & ?).
        exists gs', added. split; [congruence|auto].
      - intros Hn. destruct (Hnone Hn eq_refl). }
  pose proof (play_move_history self1
                (nth (current_move_index gs1) (solution_moves self1) "")
                gs1 Hgs1) as (gs2 & added2 & Hgs2 & Hm2 & Hl2).
  destruct (play_move self1 _) as [self2 [opp_result opp_message]].
  cbn [fst] in Hgs2.
  assert (Htwo : ∀ gs, game_state self = Some gs →
            ∃ gs' added, game_state self2 = Some gs'
              ∧ moves_uci gs' = moves_uci gs ++ added
              ∧ length added
                ≤ length [msg; "Opponent: " +:+ opp_message]).
  { intros gs Hgs. destruct (Hone gs Hgs) as (gs' & added & Hgs' & Hm & Hl).
    assert (gs' = gs1) as -> by congruence.
    exists gs2, (added ++ added2). split; [exact Hgs2|].
    split; [rewrite Hm2, Hm, app_assoc; reflexivity|].
    rewrite length_app. cbn [length] in *. lia. }
  destruct (bool_decide (opp_result = PUZZLE_SOLVED));
    intros [= <- <- <- <-];
    exists [msg; "Opponent: " +:+ opp_message];
    (split; [rewrite <- app_assoc; reflexivity|]);
    (split; [cbn [length]; lia|]);
    (split; [exact Htwo|]);
    intros Hn; destruct (Hnone Hn eq_refl).
Qed.

Lemma tree_loop_bounds (moves : list string) (self self' : ChessLogic)
    (result result' : option MoveResult) (results results' : list string)
    (fl : flow) :
  tree_loop self result results moves = Ok (fl, (self', result', results')) →
  ∃ new, results' = results ++ new
    ∧ length new ≤ 2 * length moves
    ∧ (moves ≠ [] → 1 ≤ length new)
    ∧ (∀ gs, game_state self = Some gs →
         ∃ gs' added, game_state self' = Some gs'
           ∧ moves_uci gs' = moves_uci gs ++ added
           ∧ length added ≤ length new)
    ∧ (game_state self = None → moves ≠ [] →
         self' = self ∧ result' = Some INVALID_MOVE
         ∧ new = ["No puzzle initialized"]).
Proof.
  revert self result results.
  induction moves as [|m rest IH]; intros self result results.
  - cbn [tree_loop]. intros [= <- <- <- <-]. exists [].
    rewrite app_nil_r. split; [reflexivity|]. split; [cbn; lia|].
    split; [congruence|]. split; [|congruence].
    intros gs Hgs. exists gs, []. rewrite app_nil_r. auto.
  - cbn [tree_loop].
    destruct (tree_body self results m) as [[fl1 [[self1 r1] results1]]|e]
      eqn:Hbody; [|discriminate].
    cbn [bind].
    destruct (tree_body_bounds _ _ _ _ _ _ _ Hbody)
      as (new1 & -> & Hlen1 & Hhist1 & Hnone1).
    destruct fl1.
    + intros [= <- <- <- <-]. exists new1. split; [reflexivity|].
      split; [cbn [length]; lia|]. split; [lia|]. split; [exact Hhist1|].
      intros Hn _. destruct (Hnone1 Hn) as (_ & -> & -> & ->). auto.
    + intros Hloop.
      destruct (IH _ _ _ Hloop) as (new2 & -> & Hlen2 & _ & Hhist2 & _).
      exists (new1 ++ new2). split; [rewrite app_assoc; reflexivity|].
      rewrite length_app. split; [cbn [length]; lia|]. split; [lia|]. split.
      * intros gs Hgs.
        destruct (Hhist1 gs Hgs) as (gs1 & added1 & Hgs1 & Hm1 & Hl1).
        destruct (Hhist2 gs1 Hgs1) as (gs2 & added2 & Hgs2 & Hm2 & Hl2).
        exists gs2, (added1 ++ added2). split; [exact Hgs2|].
        split; [rewrite Hm2, Hm1, app_assoc; reflexivity|].
        rewrite length_app. lia.
      * intros Hn _. destruct (Hnone1 Hn) as (Hfl & _). discriminate.
Qed.

(** X16. [play_move_tree] on a list that is not empty returns; it reports at
    least one message and at most two per listed move, and it applies no
    more plies than it reports messages: the history afterwards is the
    history before with that many strings or fewer appended. On an engine
    with no puzzle it changes nothing and returns INVALID_MOVE with the one
    message "No puzzle initialized", whatever the length of the list. *)
Theorem play_move_tree_bounds (self : ChessLogic) (moves : list string) :
  moves ≠ [] →
  ∃ self' r msgs,
    play_move_tree self moves = Ok (self', (r, msgs))
    ∧ 1 ≤ length msgs ≤ 2 * length moves
    ∧ (∀ gs, game_state self = Some gs →
         ∃ gs' added, game_state self' = Some gs'
           ∧ moves_uci gs' = moves_uci gs ++ added
           ∧ length added ≤ length msgs)
    ∧ (game_state self = None →
         self' = self ∧ r = INVALID_MOVE
         ∧ msgs = ["No puzzle initialized"]).
Proof.
  intros Hne. unfold play_move_tree.
  destruct (tree_loop_total moves self None [])
    as (fl & self' & result' & results' & Hloop & Hsome).
  destruct (Hsome (or_intror Hne)) as [r ->].
  rewrite Hloop. cbn [bind].
  destruct (tree_loop_bounds _ _ _ _ _ _ _ _ Hloop)
    as (new & Hres & Hlen & Hpos & Hhist & Hnone).
  cbn [app] in Hres. subst results'.
  exists self', r, new. split; [reflexivity|].
  split; [split; [exact (Hpos Hne)|exact Hlen]|]. split; [exact Hhist|].
  intros Hn. destruct (Hnone Hn Hne) as (-> & [= ->] & ->). auto.
Qed.

End TreeBounds.

(** ** adjust_difficulty *)

Section Difficulty.
Import puzzle_manager.

Lemma adjust_difficulty_step (self : PuzzleManager) (success : bool) :
  (800 ≤ user_difficulty self ≤ 2500)%Z →
  (800 ≤ user_difficulty (adjust_difficulty self success) ≤ 2500)%Z
  ∧ (user_difficulty self - 25
     ≤ user_difficulty (adjust_difficulty self success)
     ≤ user_difficulty self + 50)%Z.
Proof.
  intros H. destruct success; cbn [adjust_difficulty user_difficulty]; lia.
Qed.

(** X17. The rating [adjust_difficulty] keeps. From a rating between 800 and
    2500, as the constructor's 1200 is, any sequence of outcomes leaves it
    between 800 and 2500; [n] successes in a row take it to
    min(rating + 50 n, 2500) and [n] failures in a row to
    max(rating - 25 n, 800); the current puzzle and the store are not
    touched. *)
Theorem adjust_difficulty_range (self : PuzzleManager)
    (outcomes : list bool) (n : nat) :
  (800 ≤ user_difficulty self ≤ 2500)%Z →
  (800 ≤ user_difficulty (foldl adjust_difficulty self outcomes) ≤ 2500)%Z
  ∧ user_difficulty (foldl adjust_difficulty self (replicate n true))
    = Z.min (user_difficulty self + 50 * Z.of_nat n) 2500
  ∧ user_difficulty (foldl adjust_difficulty self (replicate n false))
    = Z.max (user_difficulty self - 25 * Z.of_nat n) 800
  ∧ current_puzzle (foldl adjust_difficulty self outcomes)
    = current_puzzle self
  ∧ state_manager (foldl adjust_difficulty self outcomes)
    = state_manager self.
Proof.
  intros Hrange. split; [|split; [|split; [|split]]].
  - revert self Hrange. induction outcomes as [|o os IH]; intros self Hrange.
    + exact Hrange.
    + cbn [foldl]. apply IH. apply adjust_difficulty_step. exact Hrange.
  - revert self Hrange. induction n as [|n IH]; intros self Hrange.
    + cbn [replicate foldl]. lia.
    + cbn [replicate foldl].
      rewrite IH by (apply adjust_difficulty_step; exact Hrange).
      cbn [adjust_difficulty user_difficulty]. lia.
  - revert self Hrange. induction n as [|n IH]; intros self Hrange.
    + cbn [replicate foldl]. lia.
    + cbn [replicate foldl].
      rewrite IH by (apply adjust_difficulty_step; exact Hrange).
      cbn [adjust_difficulty user_difficulty]. lia.
  - clear Hrange. revert self. induction outcomes as [|o os IH]; intros self.
    + reflexivity.
    + cbn [foldl]. rewrite IH. reflexivity.
  - clear Hrange. revert self. induction outcomes as [|o os IH]; intros self.
    + reflexivity.
    + cbn [foldl]. rewrite IH. reflexivity.
Qed.

End Difficulty.

(** ** Back to the start; how loading fails *)

Section StartAndLoad.
Import chess_logic.
Context {R : ChessRules}.

Lemma call_keeps_puzzle (self self' : ChessLogic) (c : Call) :
  call self c = Ok self' →
  solution_moves self' = solution_moves self
  ∧ puzzle_id self' = puzzle_id self.
Proof.
  destruct c as [move_str|count]; cbn [call].
  - intros [= <-].
    destruct (play_move_cases self move_str)
      as [[_ H]|[(gs & _ & _ & H)|[(gs & mv & _ & _ & _ & H)
         |(gs & mv & _ & _ & _ & H)]]]; rewrite H; cbn [fst]; auto.
  - unfold rollback_moves. destruct (game_state self) as [gs|].
    + destruct (count <=? 0)%Z; [intros [= <-]; auto|].
      destruct (rollback_loop _ _ _ _) as [[[b mv] k]|e]; [|discriminate].
      cbn [bind]. intros [= <-]. auto.
    + intros [= <-]. auto.
Qed.

Lemma calls_keeps_puzzle (cs : list Call) (self self' : ChessLogic) :
  calls self cs = Ok self' →
  solution_moves self' = solution_moves self
  ∧ puzzle_id self' = puzzle_id self.
Proof.
  revert self. induction cs as [|c cs IH]; intros self; cbn [calls].
  - intros [= <-]. auto.
  - destruct (call self c) as [self1|e] eqn:Hcall; [|discriminate].
    cbn [bind]. intros Hcalls.
    destruct (call_keeps_puzzle _ _ _ Hcall) as [<- <-]. apply IH.
    exact Hcalls.
Qed.

(** The index never runs ahead of the history. *)
Lemma call_index_le (self self' : ChessLogic) (gs : GameState) (c : Call) :
  game_state self = Some gs → consistent gs →
  current_move_index gs ≤ length (moves_uci gs) →
  call self c = Ok self' →
  ∃ gs', game_state self' = Some gs'
    ∧ current_move_index gs' ≤ length (moves_uci gs').
Proof.
  intros Hgs Hc Hle. destruct c as [move_str|count]; cbn [call].
  - intros [= <-].
    destruct (play_move_cases self move_str)
      as [[Hn _]|[(gs1 & _ & _ & H)|[(gs1 & mv & _ & _ & _ & H)
         |(gs1 & mv & Hgs1 & _ & _ & H)]]]; rewrite ?H; cbn [fst].
    + congruence.
    + eauto.
    + eauto.
    + assert (gs1 = gs) as -> by congruence.
      eexists. split; [reflexivity|].
      cbn [current_move_index moves_uci]. rewrite length_app.
      cbn [length]. destruct (is_player_turn gs); lia.
  - rewrite (rollback_moves_exact self gs count Hgs Hc).
    destruct (count <=? 0)%Z; cbn [bind]; intros [= <-]; [eauto|].
    eexists. split; [reflexivity|].
    cbn [current_move_index moves_uci]. rewrite length_take. lia.
Qed.

Lemma calls_index_le (cs : list Call) (self self' : ChessLogic)
    (gs : GameState) :
  game_state self = Some gs → consistent gs →
  current_move_index gs ≤ length (moves_uci gs) →
  calls self cs = Ok self' →
  ∃ gs', game_state self' = Some gs'
    ∧ current_move_index gs' ≤ length (moves_uci gs').
Proof.
  revert self gs. induction cs as [|c cs IH]; intros self gs Hgs Hc Hle;
    cbn [calls].
  - intros [= <-]. eauto.
  - destruct (call_consistent self gs c Hgs Hc)
      as (self1 & gs1 & Hcall & Hgs1 & Hc1).
    rewrite Hcall. cbn [bind].
    destruct (call_index_le self self1 gs c Hgs Hc Hle Hcall)
      as (gs1' & Hgs1' & Hle1).
    assert (gs1' = gs1) as -> by congruence.
    apply (IH self1 gs1 Hgs1 Hc1 Hle1).
Qed.

(** X18. Rolling back the whole history is a restart. From
    [initialize_puzzle], after any sequence of [play_move] and
    [rollback_moves] calls, [rollback_moves] with a positive count of at
    least the history length puts the game state back as
    [initialize_puzzle] left it (start position, empty history, index 0,
    player to move, not solved) and keeps the solution and the puzzle id;
    only the store stays as the calls left it. It returns True exactly when
    the history was not empty. *)
Theorem rollback_moves_to_start {L : ChessRulesLaws R}
    (self0 self self' : ChessLogic) (pid fen : string)
    (solution : list string) (cs : list Call) (gs : GameState) (count : Z) :
  initialize_puzzle self0 pid fen solution = Ok self →
  calls self cs = Ok self' →
  game_state self' = Some gs →
  (0 < count)%Z →
  (Z.of_nat (length (moves_uci gs)) ≤ count)%Z →
  rollback_moves self' count
  = Ok ({| game_state := game_state self;
           solution_moves := solution_moves self;
           state_manager := state_manager self';
           puzzle_id := puzzle_id self |},
        bool_decide (moves_uci gs ≠ [])).
Proof.
  intros Hinit Hcalls Hgs Hpos Hcount.
  destruct (calls_keeps_puzzle _ _ _ Hcalls) as [Hsol Hpid].
  destruct (initialize_puzzle_replayable _ _ _ _ _ Hinit)
    as (p0 & gs0 & Hp0 & Hgs0 & Hc0 & Hr0 & _).
  assert (Hstart : gs0 = {| board := board_new p0; moves_uci := [];
                            current_move_index := 0;
                            is_player_turn := true;
                            puzzle_solved := false |}).
  { unfold initialize_puzzle in Hinit. rewrite Hp0 in Hinit.
    injection Hinit as <-. cbn [game_state] in Hgs0. congruence. }
  assert (Hle0 : current_move_index gs0 ≤ length (moves_uci gs0))
    by (rewrite Hstart; cbn; lia).
  destruct (calls_index_le cs self self' gs0 Hgs0 Hc0 Hle0 Hcalls)
    as (gs1 & Hgs1 & Hle).
  assert (gs1 = gs) as -> by congruence.
  destruct (calls_replayable cs self gs0 p0 Hgs0 Hc0 Hr0)
    as (self1 & gs1 & Hcalls1 & Hgs1' & Hc & mvs & Hb & Hm & _).
  assert (self1 = self') as -> by congruence.
  assert (gs1 = gs) as -> by congruence.
  rewrite (rollback_moves_exact self' gs count Hgs Hc).
  assert (Hf : (count <=? 0)%Z = false) by (apply Z.leb_gt; lia).
  rewrite Hf, Hsol, Hpid, Hgs0, Hstart.
  assert (Hmin : Z.to_nat count `min` length (moves_uci gs)
                 = length (moves_uci gs)) by lia.
  rewrite Hmin, Nat.sub_diag. cbn [take].
  replace (current_move_index gs - length (moves_uci gs)) with 0 by lia.
  assert (Hboard : pops (Z.to_nat count) (board gs) = board_new p0).
  { assert (Hz : length mvs - Z.to_nat count = 0)
      by (rewrite Hm, length_fmap in Hcount; lia).
    rewrite Hb, pops_foldl_push, Hz by reflexivity. reflexivity. }
  rewrite Hboard. do 2 f_equal.
  apply bool_decide_ext. destruct (moves_uci gs); cbn [length].
  - split; [lia|congruence].
  - split; [discriminate|lia].
Qed.

(** X19. How loading fails. [load_from_state] raises an exception of class
    ValueError itself exactly when the FEN does not parse, whatever the
    moves are. With a FEN that parses it returns exactly when every stored
    string is coordinate notation and every move is from a square that
    holds a piece; it raises InvalidMoveError (a subclass of ValueError)
    exactly when the first string at which this fails does not parse, and
    the AssertionError of [board.push] exactly when that string parses to a
    move from an empty square. It raises nothing else, and
    [PuzzleManager.get_board_from_state] on a manager whose current puzzle
    has that FEN fails and succeeds in the same cases, with the same error
    or board; without a current puzzle it raises ValueError. *)
Theorem load_from_state_errors (self : ChessLogic)
    (puzzle_state : state_manager.PuzzleState) (initial_fen : string)
    (solution : list string) (pm : puzzle_manager.PuzzleManager) :
  (load_from_state self puzzle_state initial_fen solution = Raise ValueError
   ↔ board_from_fen initial_fen = None)
  ∧ (∀ p0, board_from_fen initial_fen = Some p0 →
       ((∃ self', load_from_state self puzzle_state initial_fen solution
                  = Ok self')
        ↔ ∃ mvs,
            mapM from_uci (state_manager.moves_uci puzzle_state) = Some mvs
            ∧ pushable_line p0 mvs = true)
       ∧ (load_from_state self puzzle_state initial_fen solution
          = Raise InvalidMoveError
          ↔ ∃ pre s rest mvs,
              state_manager.moves_uci puzzle_state = pre ++ s :: rest
              ∧ mapM from_uci pre = Some mvs
              ∧ pushable_line p0 mvs = true
              ∧ from_uci s = None)
       ∧ (load_from_state self puzzle_state initial_fen solution
          = Raise AssertionError
          ↔ ∃ pre s rest mvs m,
              state_manager.moves_uci puzzle_state = pre ++ s :: rest
              ∧ mapM from_uci pre = Some mvs
              ∧ pushable_line p0 mvs = true
              ∧ from_uci s = Some m
              ∧ pushable (foldl apply_move p0 mvs) m = false))
  ∧ (∀ e, load_from_state self puzzle_state initial_fen solution = Raise e →
       e = ValueError ∨ e = InvalidMoveError ∨ e = AssertionError)
  ∧ (puzzle_manager.current_puzzle pm = None →
     puzzle_manager.get_board_from_state pm puzzle_state = Raise ValueError)
  ∧ (∀ puzzle, puzzle_manager.current_puzzle pm = Some puzzle →
       puzzle_manager.fen puzzle = initial_fen →
       match load_from_state self puzzle_state initial_fen solution with
       | Ok self' =>
         ∃ gs, game_state self' = Some gs
           ∧ puzzle_manager.get_board_from_state pm puzzle_state
             = Ok (board gs)
       | Raise e =>
         puzzle_manager.get_board_from_state pm puzzle_state = Raise e
       end).
Proof.
  unfold load_from_state, _replay_moves_on_board,
    puzzle_manager.get_board_from_state.
  set (moves := state_manager.moves_uci puzzle_state).
  destruct (board_from_fen initial_fen) as [p0|] eqn:Hfen.
  2:{ cbn [bind]. split; [split; reflexivity|].
      split; [intros p0; discriminate|].
      split; [intros e [= <-]; auto|].
      split; [intros ->; reflexivity|].
      intros puzzle -> ->. rewrite Hfen. reflexivity. }
  pose proof (replay_loop_ok moves) as Hok.
  pose proof (λ pre rest s mvs,
                replay_loop_fails pre rest s mvs (board_new p0)) as Hfail.
  cbn [board_new position] in Hfail.
  destruct (replay_cases moves p0)
    as [(mvs & Hm & Hl)
       |(pre & s & rest & mvs & Hsplit & Hm & Hl
         & [Hs|(m & Hs & Hp)])].
  - rewrite (Hok mvs (board_new p0) Hm Hl). cbn [bind].
    split; [split; discriminate|]. split.
    { intros p [= <-]. split; [split; eauto|].
      split; split; try discriminate.
      - intros (pre & s & rest & mvs' & Hsplit & Hm' & Hl' & Hs).
        destruct (Hfail pre rest s mvs' Hm' Hl') as [Hparse _].
        specialize (Hparse Hs). rewrite <- Hsplit in Hparse.
        rewrite (Hok mvs (board_new p0) Hm Hl) in Hparse. discriminate.
      - intros (pre & s & rest & mvs' & m & Hsplit & Hm' & Hl' & Hs & Hp).
        destruct (Hfail pre rest s mvs' Hm' Hl') as [_ Hpush].
        specialize (Hpush m Hs Hp). rewrite <- Hsplit in Hpush.
        rewrite (Hok mvs (board_new p0) Hm Hl) in Hpush. discriminate. }
    split; [discriminate|]. split; [intros ->; reflexivity|].
    intros puzzle -> ->. rewrite Hfen. eexists. split; [reflexivity|].
    apply (Hok mvs (board_new p0) Hm Hl).
  - destruct (Hfail pre rest s mvs Hm Hl) as [Hparse _].
    specialize (Hparse Hs). rewrite <- Hsplit in Hparse.
    rewrite Hparse. cbn [bind].
    split; [split; discriminate|]. split.
    { intros p [= <-]. split; [|split].
      - split; [intros [? ?]; discriminate|].
        intros (mvs' & Hm' & Hl').
        rewrite (Hok mvs' (board_new p0) Hm' Hl') in Hparse. discriminate.
      - split; [|reflexivity]. intros _.
        exists pre, s, rest, mvs. auto.
      - split; [discriminate|].
        intros (pre' & s' & rest' & mvs' & m & Hsplit' & Hm' & Hl' & Hs'
                & Hp').
        destruct (Hfail pre' rest' s' mvs' Hm' Hl') as [_ Hpush].
        specialize (Hpush m Hs' Hp'). rewrite <- Hsplit' in Hpush.
        rewrite Hparse in Hpush. discriminate. }
    split; [intros e [= <-]; auto|]. split; [intros ->; reflexivity|].
    intros puzzle -> ->. rewrite Hfen. exact Hparse.
  - destruct (Hfail pre rest s mvs Hm Hl) as [_ Hpush].
    specialize (Hpush m Hs Hp). rewrite <- Hsplit in Hpush.
    rewrite Hpush. cbn [bind].
    split; [split; discriminate|]. split.
    { intros p [= <-]. split; [|split].
      - split; [intros [? ?]; discriminate|].
        intros (mvs' & Hm' & Hl').
        rewrite (Hok mvs' (board_new p0) Hm' Hl') in Hpush. discriminate.
      - split; [discriminate|].
        intros (pre' & s' & rest' & mvs' & Hsplit' & Hm' & Hl' & Hs').
        destruct (Hfail pre' rest' s' mvs' Hm' Hl') as [Hparse _].
        specialize (Hparse Hs'). rewrite <- Hsplit' in Hparse.
        rewrite Hpush in Hparse. discriminate.
      - split; [|reflexivity]. intros _.
        exists pre, s, rest, mvs, m. auto. }
    split; [intros e [= <-]; auto|]. split; [intros ->; reflexivity|].
    intros puzzle -> ->. rewrite Hfen. exact Hpush.
Qed.

End StartAndLoad.

(** ** The further properties on the opening book *)

(** X9 on the Open Game: two plies played, five rolled back. *)
Lemma rollback_moves_spec_witness :
  chess_logic.rollback_moves
    (Book.played (Book.session Book.initial_fen ["e2e4"; "e7e5"])
       ["e2e4"; "e7e5"]) 5
  = Ok ({| chess_logic.game_state :=
             Some {| chess_logic.board :=
                       chess_logic.board_new (Book.initial_fen, []);
                     chess_logic.moves_uci := [];
                     chess_logic.current_move_index := 0;
                     chess_logic.is_player_turn := true;
                     chess_logic.puzzle_solved := false |};
           chess_logic.solution_moves := ["e2e4"; "e7e5"];
           chess_logic.state_manager :=
             chess_logic.state_manager
               (Book.played (Book.session Book.initial_fen ["e2e4"; "e7e5"])
                  ["e2e4"; "e7e5"]);
           chess_logic.puzzle_id := Some "p1" |}, true).
Proof.
  exact (rollback_moves_spec
           (Book.played (Book.session Book.initial_fen ["e2e4"; "e7e5"])
              ["e2e4"; "e7e5"])
           (Book.state
              (Book.played (Book.session Book.initial_fen ["e2e4"; "e7e5"])
                 ["e2e4"; "e7e5"]))
           5 eq_refl (conj eq_refl eq_refl)).
Defined.

(** X10 on the Open Game: one ply back twice, two plies back at once. *)
Lemma rollback_moves_compose_witness :
  chess_logic.calls Book.open_game
    [chess_logic.CallRollback 1; chess_logic.CallRollback 1]
  = chess_logic.calls Book.open_game [chess_logic.CallRollback 2].
Proof.
  apply (rollback_moves_compose Book.open_game (Book.state Book.open_game)
           1 1).
  - reflexivity.
  - split; reflexivity.
  - lia.
  - lia.
Defined.

(** X11 on the Open Game: two plies, a rejected move, one ply rolled
    back. *)
Lemma engine_records_legal_moves_witness :
  ∃ p0 self' gs mvs,
    board_from_fen Book.initial_fen = Some p0
    ∧ chess_logic.calls (Book.session Book.initial_fen ["e2e4"; "e7e5"])
        [chess_logic.CallPlayMove "e2e4"; chess_logic.CallPlayMove "e7e5";
         chess_logic.CallPlayMove "e2e5"; chess_logic.CallRollback 1]
      = Ok self'
    ∧ chess_logic.game_state self' = Some gs
    ∧ chess_logic.board gs
      = foldl chess_logic.push (chess_logic.board_new p0) mvs
    ∧ chess_logic.moves_uci gs = uci <$> mvs
    ∧ chess_logic.legal_line p0 mvs = true.
Proof.
  apply (engine_records_legal_moves (L:=book_laws) Book.engine _ "p1"
           Book.initial_fen ["e2e4"; "e7e5"]).
  reflexivity.
Defined.

(** X12 on the Open Game: the history after three plies and one rollback,
    loaded into a fresh engine and rebuilt by the puzzle manager. *)
Lemma recorded_history_resumes_witness :
  chess_logic.load_from_state Book.engine
    (state_manager.mkPuzzleState "p1" ["e2e4"; "e7e5"] (Some 7%Z))
    Book.initial_fen ["e2e4"; "e7e5"; "g1f3"]
  = Ok {| chess_logic.game_state :=
            Some {| chess_logic.board :=
                      foldl chess_logic.push
                        (chess_logic.board_new (Book.initial_fen, []))
                        ["e2e4"; "e7e5"];
                    chess_logic.moves_uci := ["e2e4"; "e7e5"];
                    chess_logic.current_move_index := 2;
                    chess_logic.is_player_turn := true;
                    chess_logic.puzzle_solved := false |};
          chess_logic.solution_moves := ["e2e4"; "e7e5"; "g1f3"];
          chess_logic.state_manager := Some state_manager.new;
          chess_logic.puzzle_id := Some "p1" |}
  ∧ puzzle_manager.get_board_from_state
      {| puzzle_manager.current_puzzle :=
           Some (puzzle_manager.mkPuzzleData "p1" Book.initial_fen
                   ["e2e4"; "e7e5"; "g1f3"] 1500 75 90 1000 [] "" []);
         puzzle_manager.user_difficulty := 1200;
         puzzle_manager.state_manager := state_manager.new |}
      (state_manager.mkPuzzleState "p1" ["e2e4"; "e7e5"] (Some 7%Z))
    = Ok (foldl chess_logic.push
            (chess_logic.board_new (Book.initial_fen, []))
            ["e2e4"; "e7e5"]).
Proof.
  apply (recorded_history_resumes (L:=book_laws) (U:=book_uci_round_trip)
           (P:=book_push_laws) Book.engine
           (Book.session Book.initial_fen ["e2e4"; "g1f3"; "b8c6"])
           (Book.rolled_back Book.open_game 1)
           "p1" Book.initial_fen ["e2e4"; "g1f3"; "b8c6"]
           [chess_logic.CallPlayMove "e2e4"; chess_logic.CallPlayMove "e7e5";
            chess_logic.CallPlayMove "g1f3"; chess_logic.CallRollback 1]
           (Book.state (Book.rolled_back Book.open_game 1))
           Book.engine (Some 7%Z) ["e2e4"; "e7e5"; "g1f3"]
           {| puzzle_manager.current_puzzle :=
                Some (puzzle_manager.mkPuzzleData "p1" Book.initial_fen
                        ["e2e4"; "e7e5"; "g1f3"] 1500 75 90 1000 [] "" []);
              puzzle_manager.user_difficulty := 1200;
              puzzle_manager.state_manager := state_manager.new |}
           (puzzle_manager.mkPuzzleData "p1" Book.initial_fen
              ["e2e4"; "e7e5"; "g1f3"] 1500 75 90 1000 [] "" [])).
  - reflexivity.
  - reflexivity.
  - reflexivity.
  - reflexivity.
  - reflexivity.
Defined.

(** X13 on the Open Game: Black's reply played and rolled back; the index,
    1 before the reply, is 0 afterwards. *)
Lemma play_move_then_rollback_witness :
  chess_logic.rollback_moves
    (Book.played (Book.session Book.initial_fen ["e2e4"; "e7e5"; "g1f3"])
       ["e2e4"; "e7e5"]) 1
  = Ok ({| chess_logic.game_state :=
             Some {| chess_logic.board :=
                       chess_logic.push
                         (chess_logic.board_new (Book.initial_fen, []))
                         "e2e4";
                     chess_logic.moves_uci := ["e2e4"];
                     chess_logic.current_move_index := 0;
                     chess_logic.is_player_turn := false;
                     chess_logic.puzzle_solved := false |};
           chess_logic.solution_moves := ["e2e4"; "e7e5"; "g1f3"];
           chess_logic.state_manager :=
             chess_logic.state_manager
               (Book.played
                  (Book.session Book.initial_fen ["e2e4"; "e7e5"; "g1f3"])
                  ["e2e4"; "e7e5"]);
           chess_logic.puzzle_id := Some "p1" |}, true).
Proof.
  exact (play_move_then_rollback
           (Book.played
              (Book.session Book.initial_fen ["e2e4"; "e7e5"; "g1f3"])
              ["e2e4"])
           (Book.played
              (Book.session Book.initial_fen ["e2e4"; "e7e5"; "g1f3"])
              ["e2e4"; "e7e5"])
           (Book.state
              (Book.played
                 (Book.session Book.initial_fen ["e2e4"; "e7e5"; "g1f3"])
                 ["e2e4"]))
           "e7e5" "e5" chess_logic.SUCCESS
           eq_refl (conj eq_refl eq_refl) eq_refl (or_introl eq_refl)).
Defined.

(** X14 on the Open Game: the first ply of a session wired to an empty
    store. *)
Lemma play_move_notifies_store_witness :
  (chess_logic.state_manager
     (Book.session Book.initial_fen ["e2e4"; "g1f3"; "b8c6"]) = None
   ∨ chess_logic.puzzle_id
       (Book.session Book.initial_fen ["e2e4"; "g1f3"; "b8c6"]) = None
   ∨ chess_logic.puzzle_id
       (Book.session Book.initial_fen ["e2e4"; "g1f3"; "b8c6"]) = Some "" →
   chess_logic.state_manager
     (Book.played (Book.session Book.initial_fen ["e2e4"; "g1f3"; "b8c6"])
        ["e2e4"])
   = chess_logic.state_manager
       (Book.session Book.initial_fen ["e2e4"; "g1f3"; "b8c6"]))
  ∧ (∀ st p,
       chess_logic.state_manager
         (Book.session Book.initial_fen ["e2e4"; "g1f3"; "b8c6"]) = Some st →
       chess_logic.puzzle_id
         (Book.session Book.initial_fen ["e2e4"; "g1f3"; "b8c6"]) = Some p →
       p ≠ "" →
       ∃ st' gs',
         chess_logic.state_manager
           (Book.played
              (Book.session Book.initial_fen ["e2e4"; "g1f3"; "b8c6"])
              ["e2e4"]) = Some st'
         ∧ chess_logic.game_state
             (Book.played
                (Book.session Book.initial_fen ["e2e4"; "g1f3"; "b8c6"])
                ["e2e4"]) = Some gs'
         ∧ state_manager.state_exists st' p (chess_logic.moves_uci gs') = true
         ∧ state_manager.get_current_state st'
           = Some (state_manager.mkPuzzleState p (chess_logic.moves_uci gs')
                     None)
         ∧ (∀ p' m' x, state_manager.stored st p' m' = Some x →
              state_manager.stored st' p' m' = Some x)
         ∧ state_manager.get_state_count st'
           = (if state_manager.state_exists st p (chess_logic.moves_uci gs')
              then state_manager.get_state_count st
              else S (state_manager.get_state_count st))).
Proof.
  apply (play_move_notifies_store
           (Book.session Book.initial_fen ["e2e4"; "g1f3"; "b8c6"])
           (Book.played
              (Book.session Book.initial_fen ["e2e4"; "g1f3"; "b8c6"])
              ["e2e4"])
           "e2e4" "e4" chess_logic.SUCCESS).
  - reflexivity.
  - left. reflexivity.
Defined.


(** X16 on the Open Game: two listed moves, the reply between them played
    from the solution. *)
Lemma play_move_tree_bounds_witness :
  ∃ self' r msgs,
    chess_logic.play_move_tree
      (Book.session Book.initial_fen ["e2e4"; "e7e5"; "g1f3"])
      ["e2e4"; "zz"]
    = Ok (self', (r, msgs))
    ∧ 1 ≤ length msgs ≤ 2 * length ["e2e4"; "zz"]
    ∧ (∀ gs,
         chess_logic.game_state
           (Book.session Book.initial_fen ["e2e4"; "e7e5"; "g1f3"])
         = Some gs →
         ∃ gs' added, chess_logic.game_state self' = Some gs'
           ∧ chess_logic.moves_uci gs' = chess_logic.moves_uci gs ++ added
           ∧ length added ≤ length msgs)
    ∧ (chess_logic.game_state
         (Book.session Book.initial_fen ["e2e4"; "e7e5"; "g1f3"]) = None →
       self' = Book.session Book.initial_fen ["e2e4"; "e7e5"; "g1f3"]
       ∧ r = chess_logic.INVALID_MOVE
       ∧ msgs = ["No puzzle initialized"]).
Proof.
  apply (play_move_tree_bounds
           (Book.session Book.initial_fen ["e2e4"; "e7e5"; "g1f3"])
           ["e2e4"; "zz"]).
  discriminate.
Defined.

(** X17 from the constructor's rating. *)
Lemma adjust_difficulty_range_witness :
  (800 ≤ puzzle_manager.user_difficulty
           (foldl puzzle_manager.adjust_difficulty puzzle_manager.new
              [true; false; false]) ≤ 2500)%Z
  ∧ puzzle_manager.user_difficulty
      (foldl puzzle_manager.adjust_difficulty puzzle_manager.new
         (replicate 30 true))
    = Z.min (puzzle_manager.user_difficulty puzzle_manager.new
             + 50 * Z.of_nat 30) 2500
  ∧ puzzle_manager.user_difficulty
      (foldl puzzle_manager.adjust_difficulty puzzle_manager.new
         (replicate 30 false))
    = Z.max (puzzle_manager.user_difficulty puzzle_manager.new
             - 25 * Z.of_nat 30) 800
  ∧ puzzle_manager.current_puzzle
      (foldl puzzle_manager.adjust_difficulty puzzle_manager.new
         [true; false; false])
    = puzzle_manager.current_puzzle puzzle_manager.new
  ∧ puzzle_manager.state_manager
      (foldl puzzle_manager.adjust_difficulty puzzle_manager.new
         [true; false; false])
    = puzzle_manager.state_manager puzzle_manager.new.
Proof.
  apply (adjust_difficulty_range puzzle_manager.new [true; false; false] 30).
  cbn [puzzle_manager.new puzzle_manager.user_difficulty]. lia.
Defined.

(** X18 on the Open Game: three plies, ten rolled back. *)
Lemma rollback_moves_to_start_witness :
  chess_logic.rollback_moves Book.open_game 10
  = Ok ({| chess_logic.game_state :=
             chess_logic.game_state
               (Book.session Book.initial_fen ["e2e4"; "g1f3"; "b8c6"]);
           chess_logic.solution_moves := ["e2e4"; "g1f3"; "b8c6"];
           chess_logic.state_manager :=
             chess_logic.state_manager Book.open_game;
           chess_logic.puzzle_id := Some "p1" |}, true).
Proof.
  apply (rollback_moves_to_start (L:=book_laws) Book.engine
           (Book.session Book.initial_fen ["e2e4"; "g1f3"; "b8c6"])
           Book.open_game "p1" Book.initial_fen ["e2e4"; "g1f3"; "b8c6"]
           [chess_logic.CallPlayMove "e2e4"; chess_logic.CallPlayMove "e7e5";
            chess_logic.CallPlayMove "g1f3"]
           (Book.state Book.open_game) 10).
  - reflexivity.
  - reflexivity.
  - reflexivity.
  - lia.
  - lazy. discriminate.
Defined.
